(** * sails-redis: the record store adapter ([lib/database/index.js])

    A shallow embedding of the [Database] prototype of the adapter and
    the properties of its operations.

    The adapter is written in Node's callback style.  Every method is
    embedded in continuation-passing style as well: a method takes its
    completion callback and yields an [action] on the [world] (the
    [Database] instance with its Redis connection, and the heap cells of
    the caller's objects the adapter mutates).  An action reports the
    calls it made to the caller's completion callbacks, in order, and
    whether it returned or threw.

    Layout: JavaScript values and the built-ins the file uses, the Redis
    connection, the collaborators that live outside this file ([Utils]
    and [Schema], taken as interfaces), the methods of [Database], and
    then the properties. *)

From Stdlib Require Import ZArith List Ascii String Bool Lia.
From stdpp Require Import base option gmap strings list pretty.

Set Default Proof Using "Type".
Set Warnings "-register-all".
Local Open Scope string_scope.
Local Open Scope Z_scope.

(* ===================================================================== *)
(** * JavaScript values *)
(* ===================================================================== *)

Module Js.

(** Numbers: the integral doubles and NaN.  Fractions and infinities are
    outside the model. *)
Inductive number :=
| NaN
| Num (z : Z).

(** A value.  An object is the list of its own enumerable properties in
    insertion order (which is the order [JSON.stringify], [Object.keys]
    and [_.extend] follow).  [VCycle] stands for a reference back to an
    enclosing object: the way a circular structure shows in a tree. *)
Inductive value :=
| VUndefined
| VNull
| VBool (b : bool)
| VNum (n : number)
| VStr (s : string)
| VArr (elems : list value)
| VObj (fields : list (string * value))
| VCycle.

Definition obj := list (string * value).

(** ** Property access on objects *)

(** [o[k]] *)
Fixpoint obj_get (k : string) (o : obj) : value :=
  match o with
  | [] => VUndefined
  | (k', v) :: rest => if String.eqb k k' then v else obj_get k rest
  end.

(** [o.hasOwnProperty(k)] *)
Fixpoint obj_has (k : string) (o : obj) : bool :=
  match o with
  | [] => false
  | (k', _) :: rest => String.eqb k k' || obj_has k rest
  end.

(** [delete o[k]] *)
Fixpoint obj_delete (k : string) (o : obj) : obj :=
  match o with
  | [] => []
  | (k', v) :: rest =>
      if String.eqb k k' then obj_delete k rest else (k', v) :: obj_delete k rest
  end.

(** [o[k] = v]: an existing property keeps its place, a new one goes last. *)
Fixpoint obj_set (k : string) (v : value) (o : obj) : obj :=
  match o with
  | [] => [(k, v)]
  | (k', v') :: rest =>
      if String.eqb k k' then (k', v) :: rest else (k', v') :: obj_set k v rest
  end.

(** [Object.keys(o)] *)
Definition Object_keys (o : obj) : list string := map fst o.

(** [v[k]] for a value that is not null or undefined: a property of an
    object, nothing for a primitive. *)
Definition get_prop (v : value) (k : string) : value :=
  match v with
  | VObj o => obj_get k o
  | _ => VUndefined
  end.

(** The properties of a value when it is an object. *)
Definition fields_of (v : value) : obj :=
  match v with
  | VObj o => o
  | _ => []
  end.

(** The elements of a value when it is an array. *)
Definition elems_of (v : value) : list value :=
  match v with
  | VArr l => l
  | _ => []
  end.

(** ** Coercions and operators *)

(** [Array.isArray(v)] *)
Definition isArray (v : value) : bool :=
  match v with
  | VArr _ => true
  | _ => false
  end.

(** ToBoolean: what [!v] and [if (v)] test. *)
Definition truthy (v : value) : bool :=
  match v with
  | VUndefined | VNull => false
  | VBool b => b
  | VNum NaN => false
  | VNum (Num z) => negb (z =? 0)
  | VStr s => negb (String.eqb s "")
  | VArr _ | VObj _ | VCycle => true
  end.

Definition number_eqb (a b : number) : bool :=
  match a, b with
  | Num x, Num y => x =? y
  | _, _ => false
  end.

(** [a === b].  NaN equals nothing; arrays and objects are compared by
    identity, and the two operands the adapter compares are properties of
    two different objects of the caller holding different allocations. *)
Definition strict_eq (a b : value) : bool :=
  match a, b with
  | VUndefined, VUndefined => true
  | VNull, VNull => true
  | VBool x, VBool y => Bool.eqb x y
  | VNum x, VNum y => number_eqb x y
  | VStr x, VStr y => String.eqb x y
  | _, _ => false
  end.

Definition is_space (c : ascii) : bool :=
  match c with
  | " "%char | "009"%char | "010"%char | "011"%char | "012"%char | "013"%char => true
  | _ => false
  end.

Definition digit_of (c : ascii) : option Z :=
  let n := Z.of_N (N_of_ascii c) in
  if (48 <=? n) && (n <=? 57) then Some (n - 48) else None.

(** The digits of a string read as a decimal numeral, [None] when a
    character is not a digit. *)
Fixpoint digits_value (s : string) (acc : Z) : option Z :=
  match s with
  | EmptyString => Some acc
  | String c rest =>
      match digit_of c with
      | Some d => digits_value rest (10 * acc + d)
      | None => None
      end
  end.

Fixpoint drop_spaces (s : string) : string :=
  match s with
  | String c rest => if is_space c then drop_spaces rest else s
  | EmptyString => EmptyString
  end.

Definition trim (s : string) : string :=
  String.rev (drop_spaces (String.rev (drop_spaces s))).

(** StringToNumber on the decimal integer numerals: surrounding white
    space is dropped, the empty string is 0, anything else is NaN. *)
Definition StringToNumber (s : string) : number :=
  match trim s with
  | EmptyString => Num 0
  | String "-"%char (String c rest) =>
      match digits_value (String c rest) 0 with
      | Some z => Num (- z)
      | None => NaN
      end
  | String "+"%char (String c rest) =>
      match digits_value (String c rest) 0 with
      | Some z => Num z
      | None => NaN
      end
  | t =>
      match digits_value t 0 with
      | Some z => Num z
      | None => NaN
      end
  end.

Definition number_to_string (n : number) : string :=
  match n with
  | NaN => "NaN"
  | Num z => pretty z
  end.

Fixpoint join (sep : string) (l : list string) : string :=
  match l with
  | [] => ""
  | [s] => s
  | s :: rest => s ++ sep ++ join sep rest
  end.

(** ToString.  An array is its elements joined by commas, null and
    undefined elements giving the empty string. *)
Fixpoint ToString (v : value) : string :=
  match v with
  | VUndefined => "undefined"
  | VNull => "null"
  | VBool true => "true"
  | VBool false => "false"
  | VNum n => number_to_string n
  | VStr s => s
  | VArr l =>
      join ","
        (map (fun x => match x with
                       | VUndefined | VNull => ""
                       | _ => ToString x
                       end) l)
  | VObj _ | VCycle => "[object Object]"
  end.

(** ToNumber: what the unary [+] applies. *)
Definition ToNumber (v : value) : number :=
  match v with
  | VUndefined => NaN
  | VNull => Num 0
  | VBool true => Num 1
  | VBool false => Num 0
  | VNum n => n
  | VStr s => StringToNumber s
  | VArr _ => StringToNumber (ToString v)
  | VObj _ | VCycle => NaN
  end.

(** [s.toLowerCase()] on ASCII letters. *)
Definition lower_char (c : ascii) : ascii :=
  let n := N_of_ascii c in
  if ((65 <=? n) && (n <=? 90))%N then ascii_of_N (n + 32) else c.

Fixpoint toLowerCase (s : string) : string :=
  match s with
  | EmptyString => EmptyString
  | String c rest => String (lower_char c) (toLowerCase rest)
  end.

(** [_.extend(target, source)]: every property of [source] assigned to
    [target], in order. *)
Definition extend (target source : obj) : obj :=
  fold_left (fun acc kv => obj_set (fst kv) (snd kv) acc) source target.

(** What the runtime and the libraries raise or hand to callbacks. *)
Inductive error :=
| CollectionNotRegistered          (* Errors.adapter.collectionNotRegistered *)
| PrimaryKeyUpdate                 (* Errors.adapter.PrimaryKeyUpdate *)
| Error (message : string)         (* new Error(message) *)
| SyntaxError (message : string)   (* thrown by JSON.parse *)
| TypeError (message : string)     (* thrown by JSON.stringify and by a
                                      property read on undefined *)
| ReplyError (message : string).   (* an error reply of the connection *)

End Js.
Export Js.

(* ===================================================================== *)
(** * JSON: [JSON.stringify] and [JSON.parse] *)
(* ===================================================================== *)

Module JSON.

Definition hex_digit (n : N) : ascii :=
  if (n <? 10)%N then ascii_of_N (48 + n) else ascii_of_N (87 + n).

(** One character of a string literal as [JSON.stringify] writes it. *)
Definition escape_char (c : ascii) : string :=
  match c with
  | "034"%char => String "\"%char (String "034"%char EmptyString)
  | "\"%char => "\\"
  | "008"%char => "\b"
  | "012"%char => "\f"
  | "010"%char => "\n"
  | "013"%char => "\r"
  | "009"%char => "\t"
  | _ =>
      let n := N_of_ascii c in
      if (n <? 32)%N
      then "\u00" ++ String (hex_digit (n / 16)) (String (hex_digit (n mod 16)) "")
      else String c ""
  end.

Fixpoint escape (s : string) : string :=
  match s with
  | EmptyString => EmptyString
  | String c rest => escape_char c ++ escape rest
  end.

Definition quote (s : string) : string :=
  String "034"%char (escape s ++ String "034"%char EmptyString).

(** What [JSON.stringify] makes of a value: a text; nothing for
    undefined (such a property is left out of an object, and written
    [null] in an array); or the TypeError of a circular structure. *)
Inductive text :=
| Circular
| Omitted
| Text (s : string).

Definition element_text (t : text) : option string :=
  match t with
  | Circular => None
  | Omitted => Some "null"
  | Text s => Some s
  end.

(** NaN is written [null]. *)
Fixpoint serialize (v : value) : text :=
  match v with
  | VUndefined => Omitted
  | VNull => Text "null"
  | VBool true => Text "true"
  | VBool false => Text "false"
  | VNum NaN => Text "null"
  | VNum (Num z) => Text (pretty z)
  | VStr s => Text (quote s)
  | VArr l =>
      let elements :=
        (fix elements (l : list value) : option (list string) :=
           match l with
           | [] => Some []
           | x :: rest =>
               match element_text (serialize x), elements rest with
               | Some t, Some ts => Some (t :: ts)
               | _, _ => None
               end
           end) l in
      match elements with
      | Some ts => Text ("[" ++ join "," ts ++ "]")
      | None => Circular
      end
  | VObj o =>
      let members :=
        (fix members (o : list (string * value)) : option (list string) :=
           match o with
           | [] => Some []
           | (k, x) :: rest =>
               match serialize x, members rest with
               | Text t, Some ms => Some ((quote k ++ ":" ++ t) :: ms)
               | Omitted, Some ms => Some ms
               | _, _ => None
               end
           end) o in
      match members with
      | Some ms => Text ("{" ++ join "," ms ++ "}")
      | None => Circular
      end
  | VCycle => Circular
  end.

(** The members of an object as they are written, in order. *)
Fixpoint members (o : obj) : option (list string) :=
  match o with
  | [] => Some []
  | (k, x) :: rest =>
      match serialize x, members rest with
      | Text t, Some ms => Some ((quote k ++ ":" ++ t) :: ms)
      | Omitted, Some ms => Some ms
      | _, _ => None
      end
  end.

(** [JSON.stringify(data)] for an object [data]; [None] when it throws. *)
Definition stringify (data : obj) : option string :=
  match serialize (VObj data) with
  | Text s => Some s
  | _ => None
  end.

(** The TypeError [JSON.stringify] throws. *)
Definition circular : error := TypeError "Converting circular structure to JSON".

(** ** Parsing *)

Definition json_space (c : ascii) : bool :=
  match c with
  | " "%char | "009"%char | "010"%char | "013"%char => true
  | _ => false
  end.

Fixpoint skip_ws (s : string) : string :=
  match s with
  | String c rest => if json_space c then skip_ws rest else s
  | EmptyString => EmptyString
  end.

(** The string without its first [n] characters. *)
Fixpoint skip (n : nat) (s : string) : string :=
  match n, s with
  | S n', String _ rest => skip n' rest
  | _, _ => s
  end.

(** The rest of a string that starts with [c]. *)
Definition starts (c : ascii) (s : string) : option string :=
  match s with
  | String c' rest => if Ascii.eqb c c' then Some rest else None
  | EmptyString => None
  end.

Definition hex_value (c : ascii) : option N :=
  let n := N_of_ascii c in
  if ((48 <=? n) && (n <=? 57))%N then Some (n - 48)%N
  else if ((97 <=? n) && (n <=? 102))%N then Some (n - 87)%N
  else if ((65 <=? n) && (n <=? 70))%N then Some (n - 55)%N
  else None.

(** The character a one-letter escape stands for. *)
Definition unescape (c : ascii) : option ascii :=
  match c with
  | "034"%char => Some "034"%char
  | "\"%char => Some "\"%char
  | "/"%char => Some "/"%char
  | "b"%char => Some "008"%char
  | "f"%char => Some "012"%char
  | "n"%char => Some "010"%char
  | "r"%char => Some "013"%char
  | "t"%char => Some "009"%char
  | _ => None
  end.

(** The character of four hexadecimal digits; one above 255 has no
    character in the model. *)
Definition hex4 (h1 h2 h3 h4 : ascii) : option ascii :=
  match hex_value h1, hex_value h2, hex_value h3, hex_value h4 with
  | Some a, Some b, Some c, Some d =>
      let code := (((a * 16 + b) * 16 + c) * 16 + d)%N in
      if (code <? 256)%N then Some (ascii_of_N code) else None
  | _, _, _, _ => None
  end.

(** The rest of a string literal after its opening quote: the characters
    it denotes and what follows the closing quote. *)
Fixpoint parse_string_body (s : string) : option (string * string) :=
  match s with
  | EmptyString => None
  | String c rest =>
      if Ascii.eqb c "034" then Some (EmptyString, rest)
      else if Ascii.eqb c "\" then
        match rest with
        | String e rest1 =>
            if Ascii.eqb e "u" then
              match rest1 with
              | String h1 (String h2 (String h3 (String h4 rest2))) =>
                  match hex4 h1 h2 h3 h4, parse_string_body rest2 with
                  | Some ch, Some (str, after) => Some (String ch str, after)
                  | _, _ => None
                  end
              | _ => None
              end
            else
              match unescape e, parse_string_body rest1 with
              | Some ch, Some (str, after) => Some (String ch str, after)
              | _, _ => None
              end
        | EmptyString => None
        end
      else if (N_of_ascii c <? 32)%N then None
      else
        match parse_string_body rest with
        | Some (str, after) => Some (String c str, after)
        | None => None
        end
  end.

(** The longest prefix of decimal digits, and the rest. *)
Fixpoint span_digits (s : string) : string * string :=
  match s with
  | String c rest =>
      match digit_of c with
      | Some _ => let (ds, after) := span_digits rest in (String c ds, after)
      | None => (EmptyString, s)
      end
  | EmptyString => (EmptyString, EmptyString)
  end.

(** An integer literal without a sign.  A fraction or an exponent has no
    number in the model. *)
Definition parse_digits (s : string) : option (Z * string) :=
  let (ds, after) := span_digits s in
  match ds, after with
  | EmptyString, _ => None
  | String "0"%char (String _ _), _ => None
  | _, String "."%char _ | _, String "e"%char _ | _, String "E"%char _ => None
  | _, _ =>
      match digits_value ds 0 with
      | Some z => Some (z, after)
      | None => None
      end
  end.

(** How a value begins, past the white space. *)
Inductive token :=
| TLiteral (v : value) (rest : string)    (* null, true, false *)
| TQuote (rest : string)
| TBracket (rest : string)
| TBrace (rest : string)
| TMinus (rest : string)
| TOther (s : string).

Definition lex (s : string) : token :=
  let t := skip_ws s in
  if String.prefix "null" t then TLiteral VNull (skip 4 t)
  else if String.prefix "true" t then TLiteral (VBool true) (skip 4 t)
  else if String.prefix "false" t then TLiteral (VBool false) (skip 5 t)
  else
    match t with
    | String c rest =>
        if Ascii.eqb c "034" then TQuote rest
        else if Ascii.eqb c "[" then TBracket rest
        else if Ascii.eqb c "{" then TBrace rest
        else if Ascii.eqb c "-" then TMinus rest
        else TOther t
    | EmptyString => TOther t
    end.

(** A member put in front of the members that follow it in the text: a
    repeated name keeps its first place and takes its last value. *)
Definition member_first (k : string) (v : value) (later : obj) : obj :=
  (k, if obj_has k later then obj_get k later else v) :: obj_delete k later.

(** A value at the head of [s], and what follows it.  The fuel bounds
    the nesting and the number of elements; [parse] gives enough. *)
Fixpoint parse_value (fuel : nat) (s : string) : option (value * string) :=
  match fuel with
  | O => None
  | S fuel =>
      match lex s with
      | TLiteral v rest => Some (v, rest)
      | TQuote rest =>
          match parse_string_body rest with
          | Some (str, after) => Some (VStr str, after)
          | None => None
          end
      | TBracket rest =>
          match starts "]" (skip_ws rest) with
          | Some after => Some (VArr [], after)
          | None =>
              match parse_elements fuel (skip_ws rest) with
              | Some (l, after) => Some (VArr l, after)
              | None => None
              end
          end
      | TBrace rest =>
          match starts "}" (skip_ws rest) with
          | Some after => Some (VObj [], after)
          | None =>
              match parse_members fuel (skip_ws rest) with
              | Some (o, after) => Some (VObj o, after)
              | None => None
              end
          end
      | TMinus rest =>
          match parse_digits rest with
          | Some (z, after) => Some (VNum (Num (- z)), after)
          | None => None
          end
      | TOther t =>
          match parse_digits t with
          | Some (z, after) => Some (VNum (Num z), after)
          | None => None
          end
      end
  end
with parse_elements (fuel : nat) (s : string) : option (list value * string) :=
  match fuel with
  | O => None
  | S fuel =>
      match parse_value fuel s with
      | Some (v, after) =>
          match starts "," (skip_ws after) with
          | Some more =>
              match parse_elements fuel more with
              | Some (l, rest) => Some (v :: l, rest)
              | None => None
              end
          | None =>
              match starts "]" (skip_ws after) with
              | Some rest => Some ([v], rest)
              | None => None
              end
          end
      | None => None
      end
  end
with parse_members (fuel : nat) (s : string) : option (obj * string) :=
  match fuel with
  | O => None
  | S fuel =>
      match starts "034" (skip_ws s) with
      | Some rest =>
          match parse_string_body rest with
          | Some (k, after) =>
              match starts ":" (skip_ws after) with
              | Some body =>
                  match parse_value fuel body with
                  | Some (v, after') =>
                      match starts "," (skip_ws after') with
                      | Some more =>
                          match parse_members fuel more with
                          | Some (o, rest') => Some (member_first k v o, rest')
                          | None => None
                          end
                      | None =>
                          match starts "}" (skip_ws after') with
                          | Some rest' => Some ([(k, v)], rest')
                          | None => None
                          end
                      end
                  | None => None
                  end
              | None => None
              end
          | None => None
          end
      | None => None
      end
  end.

(** [JSON.parse(text)]; [None] when it throws. *)
Definition parse (text : string) : option value :=
  match parse_value (2 * String.length text + 2) text with
  | Some (v, rest) =>
      match skip_ws rest with
      | EmptyString => Some v
      | _ => None
      end
  | None => None
  end.

(** The SyntaxError [JSON.parse] throws. *)
Definition unexpected : error := SyntaxError "Unexpected token in JSON".

End JSON.

(* ===================================================================== *)
(** * The Redis connection *)
(* ===================================================================== *)

Module Redis.

(** The commands the adapter sends. *)
Inductive command :=
| GET (key : string)
| SET (key payload : string)
| SETEX (key : string) (seconds : number) (payload : string)
| DEL (key : string)
| KEYS (pattern : string).

(** The client with the server behind it: the stored payloads, the
    expiry set on a key, the commands sent so far (oldest first), and
    for which commands the reply is an error. *)
Record client := {
  store : gmap string string;
  expiry : gmap string number;
  sent : list command;
  fault : command → option string;
}.

(** Glob matching of KEYS with [*], [?] and backslash escapes. *)
Fixpoint glob (pattern : string) : string → bool :=
  match pattern with
  | EmptyString => fun s => String.eqb s ""
  | String "*"%char p =>
      fix star (s : string) : bool :=
        glob p s || match s with
                    | EmptyString => false
                    | String _ s' => star s'
                    end
  | String "?"%char p =>
      fun s => match s with
               | EmptyString => false
               | String _ s' => glob p s'
               end
  | String "\"%char (String c p) =>
      fun s => match s with
               | EmptyString => false
               | String c' s' => Ascii.eqb c c' && glob p s'
               end
  | String c p =>
      fun s => match s with
               | EmptyString => false
               | String c' s' => Ascii.eqb c c' && glob p s'
               end
  end.

(** The keys of the store that match a pattern, as KEYS lists them. *)
Definition matching (pattern : string) (m : gmap string string) : list string :=
  filter (fun k => Is_true (glob pattern k)) (map fst (map_to_list m)).

(** What a command does to the server and what it replies, when the
    reply is not an error. *)
Definition execute (c : command) (r : client) : value * client :=
  match c with
  | GET k =>
      (from_option VStr VNull (store r !! k), r)
  | SET k payload =>
      (VStr "OK",
       {| store := <[k := payload]> (store r); expiry := delete k (expiry r);
          sent := sent r; fault := fault r |})
  | SETEX k seconds payload =>
      (VStr "OK",
       {| store := <[k := payload]> (store r); expiry := <[k := seconds]> (expiry r);
          sent := sent r; fault := fault r |})
  | DEL k =>
      (VNum (Num (match store r !! k with Some _ => 1 | None => 0 end)),
       {| store := delete k (store r); expiry := delete k (expiry r);
          sent := sent r; fault := fault r |})
  | KEYS pattern =>
      (VArr (map VStr (matching pattern (store r))), r)
  end.

Definition log (c : command) (r : client) : client :=
  {| store := store r; expiry := expiry r; sent := (sent r ++ [c])%list; fault := fault r |}.

(** Sending a command: it is recorded; an error reply leaves the server
    as it was. *)
Definition send (c : command) (r : client) : (error + value) * client :=
  match fault r c with
  | Some message => (inl (ReplyError message), log c r)
  | None => let (v, r') := execute c (log c r) in (inr v, r')
  end.

End Redis.

(* ===================================================================== *)
(** * The collaborators outside this file *)
(* ===================================================================== *)

(** [require('../utils')]: the helpers the adapter calls. *)
Class Utils := {
  (** [Utils.present(value)] *)
  present : value → bool;
  (** [Utils.count(criteria.where)] *)
  count : value → Z;
  (** [Utils.replaceSpaces(name)] *)
  replaceSpaces : string → string;
  (** [Utils.sanitize(recordKey)] *)
  sanitize : string → string;
}.

(** [require('./schema')]: the schema registry, with state [S]. *)
Class Schema (S : Type) := {
  (** [new Schema(connection)] *)
  new_Schema : S;
  (** [schema.registerCollection(name, definition)] *)
  registerCollection : string → obj → S → S;
  (** [schema.sync(cb)]: what it calls back with, and what it leaves of
      the registry and of the server *)
  sync_schema : S → Redis.client → (error + value) * S * Redis.client;
  (** [schema.retrieve(name)], [None] for undefined *)
  retrieve : string → S → option obj;
  (** [schema._primary[name]], [None] for undefined *)
  _primary : S → string → option string;
  (** [schema.recordKey(name, primary, value)] *)
  recordKey : S → string → option string → value → string;
  (** [schema.parse(name, record)] *)
  parse : S → string → value → obj;
}.

(** A name used as a property key: undefined reads the property called
    ["undefined"]. *)
Definition prop_key (name : option string) : string := default "undefined" name.

(* ===================================================================== *)
(** * The world and the callback style *)
(* ===================================================================== *)

(** The fields of a [Database] instance.  [definedCollections] is the
    set of the names the object holds [true] for: its own properties,
    not those an object inherits. *)
Record Database (S : Type) := {
  connection : Redis.client;
  definedCollections : gset string;
  schema : S;
}.
Arguments connection {S} _.
Arguments definedCollections {S} _.
Arguments schema {S} _.

(** The instance ([this]) and the objects of the caller that the adapter
    is handed by reference. *)
Record world (S : Type) := {
  this : Database S;
  heap : gmap nat obj;
}.
Arguments this {S} _.
Arguments heap {S} _.

(** A query descriptor; [where_] is [None] when [criteria.where] is
    undefined or null. *)
Record criteria := {
  where_ : option obj;
}.

(** [criteria.where] as a value. *)
Definition where_value (c : criteria) : value :=
  match where_ c with
  | Some o => VObj o
  | None => VUndefined
  end.

(** What a Node callback receives: [cb(err)] or [cb(null, result)];
    [cb()] is [Ok VUndefined]. *)
Inductive reply :=
| Err (e : error)
| Ok (v : value).

Section Actions.

Context {S : Type}.

Definition set_connection (c : Redis.client) (w : world S) : world S :=
  {| this := {| connection := c;
                definedCollections := definedCollections (this w);
                schema := schema (this w) |};
     heap := heap w |}.

Definition set_definedCollections (d : gset string) (w : world S) : world S :=
  {| this := {| connection := connection (this w);
                definedCollections := d;
                schema := schema (this w) |};
     heap := heap w |}.

Definition set_schema (s : S) (w : world S) : world S :=
  {| this := {| connection := connection (this w);
                definedCollections := definedCollections (this w);
                schema := s |};
     heap := heap w |}.

Definition set_heap (h : gmap nat obj) (w : world S) : world S :=
  {| this := this w; heap := h |}.

(** How a call ends: it returns, or an exception leaves it. *)
Inductive completion :=
| Normal (w : world S)
| Throw (e : error) (w : world S).

(** An action runs on the world and yields what the caller's completion
    callback was called with, in order, and how the run ended. *)
Definition action := world S → list reply * completion.

Definition callback := reply → action.

(** The caller's completion callback: the call is recorded. *)
Definition report : callback := fun r w => ([r], Normal w).

Definition skip : action := fun w => ([], Normal w).

Definition throw (e : error) : action := fun w => ([], Throw e w).

(** [a; b] *)
Definition and_then (a b : action) : action :=
  fun w =>
    match a w with
    | (calls, Normal w') => let (calls', c) := b w' in ((calls ++ calls')%list, c)
    | (calls, Throw e w') => (calls, Throw e w')
    end.

(** A command on [this.connection] with its Node callback. *)
Definition connection_send (c : Redis.command) (cb : callback) : action :=
  fun w =>
    let (r, conn) := Redis.send c (connection (this w)) in
    match r with
    | inl e => cb (Err e) (set_connection conn w)
    | inr v => cb (Ok v) (set_connection conn w)
    end.

Definition connection_get (key : string) := connection_send (Redis.GET key).
Definition connection_set (key payload : string) := connection_send (Redis.SET key payload).
Definition connection_setex (key : string) (seconds : number) (payload : string) :=
  connection_send (Redis.SETEX key seconds payload).
Definition connection_del (key : string) := connection_send (Redis.DEL key).
Definition connection_keys (pattern : string) := connection_send (Redis.KEYS pattern).

(** ** The [async] library *)

(** [async.each(arr, iterator, callback)].  Every item's iterator is
    started, in order; [callback] gets the first error, or none once all
    have completed.  The commands of all the items are on the wire before
    the first reply arrives, so they all take effect before [callback]
    runs.  [st] is the state the iterator's closure collects. *)
Fixpoint async_each {A : Type} (arr : list value)
    (iterator : value → A → (option error → A → action) → action)
    (st : A) (failed : option error)
    (callback : option error → A → action) : action :=
  match arr with
  | [] => callback failed st
  | item :: rest =>
      iterator item st (fun err st' =>
        async_each rest iterator st'
          (match failed with
           | Some e => Some e
           | None => err
           end) callback)
  end.

(** [async.auto({first: ..., second: ['first', ...]}, final)]: [second]
    runs with the result of [first]; [final] gets the first error, or
    the two results. *)
Definition async_auto (first : callback → action) (second : value → callback → action)
    (final : option error → value → value → action) : action :=
  first (fun r1 =>
    match r1 with
    | Err e => final (Some e) VUndefined VUndefined
    | Ok v1 =>
        second v1 (fun r2 =>
          match r2 with
          | Err e => final (Some e) v1 VUndefined
          | Ok v2 => final None v1 v2
          end)
    end).

(** ** Notions the properties are stated with *)

(** [op] calls its callback once, with [r], in the world [w']: whatever
    the callback does next is all that follows. *)
Definition calls_back (op : callback → action) (w : world S) (r : reply) (w' : world S)
    : Prop :=
  ∀ cb, op cb w = cb r w'.

Definition store_of (w : world S) : gmap string string := Redis.store (connection (this w)).
Definition expiry_of (w : world S) : gmap string number := Redis.expiry (connection (this w)).
Definition sent_of (w : world S) : list Redis.command := Redis.sent (connection (this w)).
Definition fault_of (w : world S) : Redis.command → option string :=
  Redis.fault (connection (this w)).

(** The world once command [c] got its reply. *)
Definition after (c : Redis.command) (w : world S) : world S :=
  set_connection (snd (Redis.send c (connection (this w)))) w.

(** The world once the keys of [items] were deleted, in order. *)
Fixpoint after_deletions (items : list value) (w : world S) : world S :=
  match items with
  | [] => w
  | item :: rest => after_deletions rest (after (Redis.DEL (ToString item)) w)
  end.

(** The first item whose deletion the connection refuses, with the
    message. *)
Fixpoint first_refusal (fault : Redis.command → option string) (items : list value)
    : option string :=
  match items with
  | [] => None
  | item :: rest =>
      match fault (Redis.DEL (ToString item)) with
      | Some message => Some message
      | None => first_refusal fault rest
      end
  end.

(** The values a TTL that means no expiry has once coerced to a number. *)
Definition no_expiry (ttl : number) : Prop :=
  ttl = NaN ∨ ttl = Num 0 ∨ ttl = Num (-1).


End Actions.

(* ===================================================================== *)
(** * [Database.prototype] *)
(* ===================================================================== *)

Section Database.

Context {S : Type} `{!Utils} `{!Schema S}.

(** [new Database(connection)] *)
Definition new_Database (conn : Redis.client) : Database S :=
  {| connection := conn; definedCollections := ∅; schema := new_Schema |}.

(** The message of the error [find] ends with. *)
Definition find_message : string :=
  "Please use primary key for the criteria, eg. find("
  ++ JSON.quote "PRIMARY-KEY" ++ ")".

(** The message of the error [destroy] ends with. *)
Definition destroy_message : string :=
  "Please use primary key for the criteria, eg. destroy("
  ++ JSON.quote "PRIMARY-KEY" ++ ") or destroy() to destroy all".

(** The test [find] and [destroy] make on the criteria:
[[
    criteria.where && criteria.where.hasOwnProperty(primary) &&
    !Array.isArray(criteria.where[primary]) &&
     Utils.present(criteria.where[primary]) &&
     Utils.count( criteria.where ) == 1
]] *)
Definition by_primary_key (primary : string) (c : criteria) : bool :=
  match where_ c with
  | Some w =>
      obj_has primary w
      && negb (isArray (obj_get primary w))
      && present (obj_get primary w)
      && (count (VObj w) =? 1)
  | None => false
  end.

(** [this.schema._primary[name]] for the lower-cased name, as the
    property name the methods read with it. *)
Definition primary_of (collectionName : string) (w : world S) : string :=
  prop_key (_primary (schema (this w)) (toLowerCase collectionName)).

(** [this.schema.recordKey(name, primary, v)] for the lower-cased name:
    the key [find], [update] and [destroy] address. *)
Definition key_of (collectionName : string) (v : value) (w : world S) : string :=
  recordKey (schema (this w)) (toLowerCase collectionName)
    (_primary (schema (this w)) (toLowerCase collectionName)) v.

(** [Database.prototype.configure] *)
Definition configure (collectionName : string) (schema_ : obj) : action (S:=S) :=
  fun w =>
    let name := toLowerCase collectionName in
    ([], Normal (set_schema (registerCollection name schema_ (schema (this w))) w)).

(** [Database.prototype.sync] *)
Definition sync (cb : callback) : action (S:=S) :=
  fun w =>
    match sync_schema (schema (this w)) (connection (this w)) with
    | (inl e, s, conn) => cb (Err e) (set_schema s (set_connection conn w))
    | (inr v, s, conn) => cb (Ok v) (set_schema s (set_connection conn w))
    end.

(** [Database.prototype.describe] *)
Definition describe (collectionName : string) (cb : callback) : action (S:=S) :=
  fun w =>
    let name := toLowerCase collectionName in
    match retrieve name (schema (this w)) with
    | None => cb (Err CollectionNotRegistered) w
    | Some desc =>
        let desc1 :=
          if (length (Object_keys desc) =? 0)%nat then VNull else VObj desc in
        (* Hack needed for migrate: safe *)
        let desc2 :=
          if negb (bool_decide (collectionName ∈ definedCollections (this w)))
          then VNull else desc1 in
        cb (Ok desc2) w
    end.

(** [Database.prototype.define] *)
Definition define (collectionName : string) (definition : obj) (cb : callback)
    : action (S:=S) :=
  fun w =>
    let name := toLowerCase collectionName in
    let w1 := set_schema (registerCollection name definition (schema (this w))) w in
    let w2 := set_definedCollections ({[collectionName]} ∪ definedCollections (this w1)) w1 in
    cb (Ok VUndefined) w2.

(** [Database.prototype.drop] *)
Definition drop (collectionName : string) (relations : value) (cb : callback)
    : action (S:=S) :=
  fun w =>
    let name := toLowerCase collectionName in
    let primary := _primary (schema (this w)) name in
    let keyPrefix := recordKey (schema (this w)) name primary (VStr "") in
    let keyPattern := keyPrefix ++ "*" in
    let destroyRecord (item : value) (_ : unit) (nextItem : option error → unit → action) :=
      connection_del (ToString item) (fun r =>
        match r with
        | Err e => nextItem (Some e) tt
        | Ok _ => nextItem None tt
        end) in
    async_auto
      (* keys *)
      (fun next => connection_keys keyPattern next)
      (* destroyAll *)
      (fun keys next =>
         async_each (elems_of keys) destroyRecord tt None (fun err _ =>
           match err with
           | Some e => next (Err e)
           | None => next (Ok VUndefined)
           end))
      (fun err _ _ =>
         and_then (match err with
                   | Some e => cb (Err e)
                   | None => skip
                   end)
                  (cb (Ok VUndefined)))
      w.

(** [Database.prototype.find] *)
Definition find (collectionName : string) (c : criteria) (cb : callback)
    : action (S:=S) :=
  fun w =>
    let name := toLowerCase collectionName in
    (* Find the attribute used as a primary key *)
    let primary := _primary (schema (this w)) name in
    if by_primary_key (prop_key primary) c then
      let key :=
        recordKey (schema (this w)) name primary
          (get_prop (where_value c) (prop_key primary)) in
      connection_get key (fun r =>
        match r with
        | Err e => cb (Err e)
        | Ok record =>
            if negb (truthy record) then cb (Ok (VArr []))
            else
              match JSON.parse (ToString record) with
              | None => cb (Err JSON.unexpected)
              | Some record' =>
                  fun w' => cb (Ok (VArr [VObj (parse (schema (this w')) name record')])) w'
              end
        end) w
    else cb (Err (Error find_message)) w.

(** [Database.prototype._set] *)
Definition _set (key : string) (data : obj) (cb : callback) : action (S:=S) :=
  let ttl := ToNumber (obj_get "_ttl" data) in
  match JSON.stringify data with
  | None => cb (Err JSON.circular)
  | Some parsedData =>
      if negb (truthy (VNum ttl)) || number_eqb ttl (Num (-1))
      then connection_set key parsedData cb
      else connection_setex key ttl parsedData cb
  end.

(** The command [_set] sends for [data] that serializes to [payload]. *)
Definition write_command (key : string) (data : obj) (payload : string) : Redis.command :=
  let ttl := ToNumber (obj_get "_ttl" data) in
  if negb (truthy (VNum ttl)) || number_eqb ttl (Num (-1))
  then Redis.SET key payload
  else Redis.SETEX key ttl payload.

(** [Database.prototype.create] *)
Definition create (collectionName : string) (data : obj) (cb : callback)
    : action (S:=S) :=
  fun w =>
    let name := toLowerCase collectionName in
    let primary := _primary (schema (this w)) name in
    let name := replaceSpaces name in
    (* Grab the key to use for this record *)
    let key := recordKey (schema (this w)) name primary (obj_get (prop_key primary) data) in
    let key := sanitize key in
    _set key data (fun r =>
      match r with
      | Err e => cb (Err e)
      | Ok _ =>
          (* Find the newly created record and return it *)
          connection_get key (fun r' =>
            match r' with
            | Err e => cb (Err e)
            | Ok values =>
                match JSON.parse (ToString values) with
                | None => cb (Err JSON.unexpected)
                | Some values' =>
                    fun w' => cb (Ok (VObj (parse (schema (this w')) name values'))) w'
                end
            end)
      end) w.

(** The guard of [update]:
[[
    Utils.present(values[primary]) && values[primary] !== criteria.where[primary]
]]
    Reading a property of an undefined [criteria.where] throws. *)
Definition primary_key_changes (primary : string) (c : criteria) (values : obj)
    : error + bool :=
  if present (obj_get primary values) then
    match where_ c with
    | Some w => inr (negb (strict_eq (obj_get primary values) (obj_get primary w)))
    | None => inl (TypeError "Cannot read property of undefined")
    end
  else inr false.

(** [Database.prototype.update]; [values] is the caller's object, held
    by reference. *)
Definition update (collectionName : string) (c : criteria) (values : nat) (cb : callback)
    : action (S:=S) :=
  fun w =>
    let name := toLowerCase collectionName in
    let primary := _primary (schema (this w)) name in
    match heap w !! values with
    | None => throw (TypeError "Cannot read property of undefined") w
    | Some vals =>
        (* Don't allow the updating of primary keys *)
        match primary_key_changes (prop_key primary) c vals with
        | inl e => throw e w
        | inr true => cb (Err PrimaryKeyUpdate) w
        | inr false =>
            (* Delete any primary keys *)
            let w1 := set_heap (<[values := obj_delete (prop_key primary) vals]> (heap w)) w in
            let updateRecord (item : value) (models : list value)
                (nextItem : option error → list value → action) : action :=
              fun w' =>
                let key :=
                  recordKey (schema (this w')) name primary
                    (get_prop item (prop_key primary)) in
                let updatedValues :=
                  extend (fields_of item) (default [] (heap w' !! values)) in
                _set key updatedValues (fun r =>
                  match r with
                  | Err e => nextItem (Some e) models
                  | Ok _ => nextItem None (models ++ [VObj updatedValues])%list
                  end) w' in
            async_auto
              (* Find all matching records based on the criteria *)
              (fun next =>
                 find name c (fun r =>
                   match r with
                   | Err e => next (Err e)
                   | Ok records => next (Ok records)
                   end))
              (* Update the record values *)
              (fun findRecords next =>
                 async_each (elems_of findRecords) updateRecord [] None (fun err models =>
                   match err with
                   | Some e => next (Err e)
                   | None => next (Ok (VArr models))
                   end))
              (fun err _ updateRecords =>
                 match err with
                 | Some e => cb (Err e)
                 | None => cb (Ok updateRecords)
                 end)
              w1
        end
    end.

(** [Database.prototype.destroy] *)
Definition destroy (collectionName : string) (c : criteria) (cb : callback)
    : action (S:=S) :=
  fun w =>
    let name := toLowerCase collectionName in
    (* Find the attribute used as a primary key *)
    let primary := _primary (schema (this w)) name in
    if by_primary_key (prop_key primary) c then
      let key :=
        recordKey (schema (this w)) name primary
          (get_prop (where_value c) (prop_key primary)) in
      connection_get key (fun r =>
        match r with
        | Err e => cb (Err e)
        | Ok record =>
            if negb (truthy record) then cb (Ok (VArr []))
            else
              connection_del key (fun r' =>
                match r' with
                | Err e => cb (Err e)
                | Ok _ => cb (Ok record)
                end)
        end) w
    else if count (where_value c) =? 0 then drop collectionName (VStr "") cb w
    else cb (Err (Error destroy_message)) w.

(** ** The calls of a host *)

(** A call of a method by the host of the adapter. *)
Inductive call :=
| Configure (collectionName : string) (schema_ : obj)
| Sync
| Describe (collectionName : string)
| Define (collectionName : string) (definition : obj)
| Drop (collectionName : string) (relations : value)
| Find (collectionName : string) (c : criteria)
| Create (collectionName : string) (data : obj)
| Update (collectionName : string) (c : criteria) (values : nat)
| Destroy (collectionName : string) (c : criteria).

Definition perform (k : call) : action (S:=S) :=
  match k with
  | Configure cn s => configure cn s
  | Sync => sync report
  | Describe cn => describe cn report
  | Define cn d => define cn d report
  | Drop cn relations => drop cn relations report
  | Find cn c => find cn c report
  | Create cn data => create cn data report
  | Update cn c values => update cn c values report
  | Destroy cn c => destroy cn c report
  end.

(** The calls of a process, one after the other; an exception ends it. *)
Fixpoint lifetime (calls : list call) : action (S:=S) :=
  match calls with
  | [] => skip
  | k :: rest => and_then (perform k) (lifetime rest)
  end.

Definition world_of (c : completion (S:=S)) : world S :=
  match c with
  | Normal w | Throw _ w => w
  end.


End Database.

(* ===================================================================== *)
(** * What a call leaves as it was *)
(* ===================================================================== *)

Section Frames.

Context {S : Type}.

(** Started in a world that stands in [R] to [w0], the action ends in a
    world that stands in [R] to [w0]. *)
Definition keeps (R : world S → world S → Prop) (a : action (S:=S)) : Prop :=
  ∀ w0 w, R w0 w → R w0 (world_of (snd (a w))).

(** [w] has the registry and the marks of [w0], and the objects of the
    caller that [w0] has, but for the one at [l]. *)
Definition untouched (l : option nat) (w0 w : world S) : Prop :=
  schema (this w) = schema (this w0)
  ∧ definedCollections (this w) = definedCollections (this w0)
  ∧ ∀ l', Some l' ≠ l → heap w !! l' = heap w0 !! l'.

(** The calls that register a schema, and the rest: those that read and
    write records, and [describe]. *)
Definition registers (k : call) : bool :=
  match k with
  | Configure _ _ | Sync | Define _ _ => true
  | _ => false
  end.

(** The object of the caller a call is handed by reference. *)
Definition handed (k : call) : option nat :=
  match k with
  | Update _ _ values => Some values
  | _ => None
  end.

End Frames.

(* ===================================================================== *)
(** * The collaborators as the specification describes them *)
(* ===================================================================== *)

Module Collaborators.

(** Modelled from the spec: [Utils.present] of [lib/utils.js]; a value is
    present when it is neither null, undefined nor the empty string. *)
Definition present (v : value) : bool :=
  match v with
  | VUndefined | VNull => false
  | VStr s => negb (String.eqb s "")
  | _ => true
  end.

(** Modelled from the spec: [Utils.count] of [lib/utils.js]; the number
    of conditions of a where clause. *)
Definition count (v : value) : Z := Z.of_nat (length (Object_keys (fields_of v))).

(** Modelled from the spec: [Utils.replaceSpaces] of [lib/utils.js]; a
    space of the name becomes an underscore. *)
Fixpoint replaceSpaces (s : string) : string :=
  match s with
  | EmptyString => EmptyString
  | String c rest =>
      String (if is_space c then "_"%char else c) (replaceSpaces rest)
  end.

(** Modelled from the spec: [Utils.sanitize] of [lib/utils.js]; the
    characters that are unsafe in a key, white space, are stripped. *)
Fixpoint sanitize (s : string) : string :=
  match s with
  | EmptyString => EmptyString
  | String c rest => if is_space c then sanitize rest else String c (sanitize rest)
  end.

#[global] Instance helpers : Utils :=
  Build_Utils present count replaceSpaces sanitize.

(** Modelled from the spec: the registry of [lib/database/schema.js];
    the description registered under each name. *)
Definition registry := gmap string obj.

(** Modelled from the spec: [Schema.prototype.registerCollection]; an
    upsert of the collection's description. *)
Definition registerCollection (name : string) (definition : obj) (s : registry) : registry :=
  <[name := definition]> s.

(** Modelled from the spec: [Schema.prototype.retrieve]; the registered
    description, or nothing. *)
Definition retrieve (name : string) (s : registry) : option obj := s !! name.

(** Modelled from the spec: [Schema.prototype._primary]; the attribute
    the description marks [primaryKey]. *)
Definition _primary (s : registry) (name : string) : option string :=
  match s !! name with
  | Some definition =>
      fst <$> List.find (fun kv => truthy (get_prop (snd kv) "primaryKey")) definition
  | None => None
  end.

(** Modelled from the spec: [Schema.prototype.recordKey]; the key is
    made of the collection, the attribute and the value, in this order. *)
Definition recordKey (s : registry) (name : string) (primary : option string)
    (v : value) : string :=
  "waterline:" ++ name ++ ":" ++ prop_key primary ++ ":" ++ ToString v.

(** Modelled from the spec: [Schema.prototype.parse]; the record with
    the types of the description, none of which changes a value here. *)
Definition parse (s : registry) (name : string) (record : value) : obj :=
  fields_of record.

(** Modelled from the spec: [Schema.prototype.sync]; the registered
    schemas are valid and nothing is left to persist. *)
Definition sync_schema (s : registry) (conn : Redis.client)
    : (error + value) * registry * Redis.client :=
  (inr VUndefined, s, conn).

#[global] Instance registry_schema : Schema registry :=
  Build_Schema registry ∅ registerCollection sync_schema retrieve _primary recordKey parse.

End Collaborators.

(* ===================================================================== *)
(** * A session to run the adapter on *)
(* ===================================================================== *)

Module Session.

Abbreviation registry := Collaborators.registry.

(** A connection to an empty server that never fails. *)
Definition empty_client : Redis.client :=
  {| Redis.store := ∅; Redis.expiry := ∅; Redis.sent := [];
     Redis.fault := fun _ => None |}.

(** The definition of the collection [user], with primary key [id]. *)
Definition user_definition : obj :=
  [("id", VObj [("type", VStr "string"); ("primaryKey", VBool true)]);
   ("name", VObj [("type", VStr "string")])].

(** A fresh adapter and an empty heap. *)
Definition fresh : world registry :=
  {| this := new_Database empty_client; heap := ∅ |}.

(** The world once [user] is defined, with the caller's [values] object
    of an update at address 0. *)
Definition started (values : obj) : world registry :=
  match define "user" user_definition report fresh with
  | (_, Normal w) => set_heap (<[0%nat := values]> (heap w)) w
  | (_, Throw _ w) => w
  end.

Definition by_id (v : value) : criteria := {| where_ := Some [("id", v)] |}.

Definition ann : obj := [("id", VStr "u1"); ("name", VStr "Ann")].

(** The same, with Ann's record created. *)
Definition stocked (values : obj) : world registry :=
  world_of (snd (create "user" ann report (started values))).

(** A connection that refuses to delete, as a read-only replica does. *)
Definition read_only (conn : Redis.client) : Redis.client :=
  {| Redis.store := Redis.store conn; Redis.expiry := Redis.expiry conn;
     Redis.sent := Redis.sent conn;
     Redis.fault := fun c => match c with
                             | Redis.DEL _ => Some "READONLY"
                             | _ => None
                             end |}.

(** The text [JSON.stringify] gives for [data], empty when it throws. *)
Definition text_of (data : obj) : string := default "" (JSON.stringify data).

(** A record whose primary key holds a space. *)
Definition spaced : obj := [("id", VStr "a b"); ("name", VStr "Bo")].

(** A criteria of two conditions. *)
Definition by_id_and_name : criteria :=
  {| where_ := Some [("id", VStr "u1"); ("name", VStr "Ann")] |}.

(** The worlds of the examples: [user] defined; Ann's record created;
    the same behind a read-only server; and with the values of an update
    that keep, and that change, the primary key. *)
Definition defined_world : world registry := Eval vm_compute in started [].

Definition stocked_world : world registry := Eval vm_compute in stocked [].

Definition read_only_world : world registry :=
  Eval vm_compute in
    set_connection (read_only (connection (this (stocked [])))) (stocked []).

Definition renaming : obj := [("id", VStr "u1"); ("name", VStr "Annie")].

Definition renaming_world : world registry := Eval vm_compute in stocked renaming.

Definition rekeying : obj := [("id", VStr "u2"); ("name", VStr "Annie")].

Definition rekeying_world : world registry := Eval vm_compute in stocked rekeying.

(** The world behind a connection that refuses, with [message], the
    commands [refused] holds of. *)
Definition refusing (refused : Redis.command → bool) (message : string)
    (conn : Redis.client) : Redis.client :=
  {| Redis.store := Redis.store conn; Redis.expiry := Redis.expiry conn;
     Redis.sent := Redis.sent conn;
     Redis.fault := fun c => if refused c then Some message else None |}.

Definition behind (refused : Redis.command → bool) (w : world registry) : world registry :=
  set_connection (refusing refused "NOPERM" (connection (this w))) w.

Definition is_keys (c : Redis.command) : bool :=
  match c with Redis.KEYS _ => true | _ => false end.

Definition is_get (c : Redis.command) : bool :=
  match c with Redis.GET _ => true | _ => false end.

Definition is_write (c : Redis.command) : bool :=
  match c with Redis.SET _ _ | Redis.SETEX _ _ _ => true | _ => false end.

(** The world in which another client has put [text] under Ann's key. *)
Definition holding (text : string) (w : world registry) : world registry :=
  let conn := connection (this w) in
  set_connection
    {| Redis.store := <["waterline:user:id:u1" := text]> (Redis.store conn);
       Redis.expiry := Redis.expiry conn; Redis.sent := Redis.sent conn;
       Redis.fault := Redis.fault conn |} w.

(** A record that expires after a minute. *)
Definition expiring : obj :=
  [("id", VStr "u3"); ("name", VStr "Cy"); ("_ttl", VNum (Num 60))].

Definition anna : obj := [("id", VStr "u1"); ("name", VStr "Anna")].

(** More worlds of the examples: [user] defined and the values of an
    update at hand; Ann's record behind servers that refuse to list, to
    read and to write; Ann's key with a text that is not JSON, and with
    the empty text; the record with a space in its key created; the
    record that expires created. *)
Definition renaming_start : world registry := Eval vm_compute in started renaming.

Definition no_scan_world : world registry := Eval vm_compute in behind is_keys (stocked []).

Definition no_read_world : world registry :=
  Eval vm_compute in behind is_get (stocked renaming).

Definition no_write_world : world registry :=
  Eval vm_compute in behind is_write (stocked renaming).


Definition blank_world : world registry := Eval vm_compute in holding "" (started []).

Definition spaced_world : world registry :=
  Eval vm_compute in
    world_of (snd (create "user" spaced report (started [("name", VStr "Bob")]))).

Definition expiring_world : world registry :=
  Eval vm_compute in
    world_of (snd (create "user" expiring report (started [("name", VStr "Cyd")]))).

End Session.

(* ===================================================================== *)
(** * Properties *)
(* ===================================================================== *)

(** ** Objects *)

Lemma obj_has_delete k o : obj_has k (obj_delete k o) = false.
Proof.
  induction o as [|[k' v] rest IH]; simpl; [done|].
  destruct (String.eqb k k') eqn:E; simpl; [done|].
  by rewrite E.
Qed.


Lemma obj_get_set_ne k k' v o : k ≠ k' → obj_get k (obj_set k' v o) = obj_get k o.
Proof.
  intros Hne. induction o as [|[k0 v0] rest IH]; simpl.
  - apply String.eqb_neq in Hne. by rewrite Hne.
  - destruct (String.eqb k' k0) eqn:E; simpl.
    + apply String.eqb_eq in E. subst k0.
      apply String.eqb_neq in Hne. by rewrite Hne.
    + destruct (String.eqb k k0); [done | exact IH].
Qed.

(** Merging values that do not hold [k] leaves [k] as it was. *)
Lemma obj_get_extend_absent k target source :
  obj_has k source = false → obj_get k (extend target source) = obj_get k target.
Proof.
  unfold extend. revert target.
  induction source as [|[k' v] rest IH]; intros target Habs; simpl in *; [done|].
  apply orb_false_elim in Habs as [Hk Hrest].
  rewrite IH by done. apply obj_get_set_ne. by apply String.eqb_neq.
Qed.

Lemma obj_get_extend_delete k target source :
  obj_get k (extend target (obj_delete k source)) = obj_get k target.
Proof. apply obj_get_extend_absent, obj_has_delete. Qed.

(** ** Lower-casing *)

Lemma lower_char_idem c : lower_char (lower_char c) = lower_char c.
Proof.
  destruct c as [[] [] [] [] [] [] [] []]; reflexivity.
Qed.

Lemma toLowerCase_idem s : toLowerCase (toLowerCase s) = toLowerCase s.
Proof.
  induction s as [|c rest IH]; simpl; [done|].
  by rewrite lower_char_idem, IH.
Qed.

(** ** JSON *)

Lemma serialize_obj o :
  JSON.serialize (VObj o) =
    match JSON.members o with
    | Some ms => JSON.Text ("{" ++ join "," ms ++ "}")
    | None => JSON.Circular
    end.
Proof.
  cbn [JSON.serialize].
  match goal with
  | |- match ?f o with _ => _ end = _ =>
      assert (E : ∀ o', f o' = JSON.members o')
  end.
  { induction o' as [|[k x] rest IH]; [done|].
    cbn [JSON.members]. rewrite <- IH. reflexivity. }
  by rewrite E.
Qed.

Lemma stringify_members data payload :
  JSON.stringify data = Some payload →
  ∃ ms, JSON.members data = Some ms ∧ payload = "{" ++ join "," ms ++ "}".
Proof.
  unfold JSON.stringify. rewrite serialize_obj.
  destruct (JSON.members data) as [ms|]; [|done].
  intros [= <-]. by exists ms.
Qed.


(** *** The fuel of the parser *)

Local Close Scope Z_scope.

Lemma skip_ws_le s : (String.length (JSON.skip_ws s) ≤ String.length s)%nat.
Proof.
  induction s as [|c rest IH]; simpl; [done|].
  destruct (JSON.json_space c); simpl; lia.
Qed.

Lemma skip_length n s : String.length (JSON.skip n s) = (String.length s - n)%nat.
Proof.
  revert s. induction n as [|n IH]; intros [|c rest]; simpl; try lia. apply IH.
Qed.

Lemma prefix_length p s : String.prefix p s = true → (String.length p ≤ String.length s)%nat.
Proof.
  revert s. induction p as [|c p IH]; intros [|c' s]; simpl; try (done || lia).
  destruct (ascii_dec c c'); [|done]. intros Hp. apply IH in Hp. lia.
Qed.

Lemma starts_shorter c s r : JSON.starts c s = Some r → String.length s = S (String.length r).
Proof.
  destruct s as [|c' rest]; simpl; [done|].
  destruct (Ascii.eqb c c'); [|done]. by intros [= ->].
Qed.

Lemma parse_string_body_shorter s str rest :
  JSON.parse_string_body s = Some (str, rest) → (String.length rest < String.length s)%nat.
Proof.
  remember (String.length s) as n eqn:Hn. revert s str rest Hn.
  induction n as [n IH] using lt_wf_ind. intros s str rest -> Hp.
  destruct s as [|c s1]; [done|]. simpl in Hp.
  destruct (Ascii.eqb c "034"). { injection Hp as _ ->. simpl. lia. }
  destruct (Ascii.eqb c "\").
  - destruct s1 as [|e s2]; [done|].
    destruct (Ascii.eqb e "u").
    + destruct s2 as [|h1 [|h2 [|h3 [|h4 s3]]]]; try done.
      destruct (JSON.hex4 h1 h2 h3 h4); [|done].
      destruct (JSON.parse_string_body s3) as [[str' after]|] eqn:Hrec; [|done].
      injection Hp as _ ->.
      eapply (IH (String.length s3)) in Hrec; [|simpl; lia|done]. simpl. lia.
    + destruct (JSON.unescape e); [|done].
      destruct (JSON.parse_string_body s2) as [[str' after]|] eqn:Hrec; [|done].
      injection Hp as _ ->.
      eapply (IH (String.length s2)) in Hrec; [|simpl; lia|done]. simpl. lia.
  - destruct (N_of_ascii c <? 32)%N; [done|].
    destruct (JSON.parse_string_body s1) as [[str' after]|] eqn:Hrec; [|done].
    injection Hp as _ ->.
    eapply (IH (String.length s1)) in Hrec; [|simpl; lia|done]. simpl. lia.
Qed.

Lemma span_digits_length s ds after :
  JSON.span_digits s = (ds, after) →
  (String.length ds + String.length after)%nat = String.length s.
Proof.
  revert ds after. induction s as [|c rest IH]; intros ds after; simpl.
  - by intros [= <- <-].
  - destruct (digit_of c).
    + destruct (JSON.span_digits rest) as [ds' after']. intros [= <- <-].
      simpl. specialize (IH _ _ eq_refl). lia.
    + by intros [= <- <-].
Qed.

Lemma parse_digits_shorter s z rest :
  JSON.parse_digits s = Some (z, rest) → (String.length rest < String.length s)%nat.
Proof.
  unfold JSON.parse_digits. destruct (JSON.span_digits s) as [ds after] eqn:Hspan.
  apply span_digits_length in Hspan. intros Hp.
  assert (ds ≠ "" ∧ rest = after) as [Hne ->].
  { destruct ds as [|d ds']; [done|]. split; [done|].
    repeat (match type of Hp with
            | context [match ?x with _ => _ end] => destruct x; try done
            end); by injection Hp. }
  destruct ds; [done|]. simpl in Hspan. lia.
Qed.

Lemma lex_shorter s :
  match JSON.lex s with
  | JSON.TLiteral _ r | JSON.TQuote r | JSON.TBracket r | JSON.TBrace r | JSON.TMinus r =>
      (String.length r < String.length s)%nat
  | JSON.TOther t => (String.length t ≤ String.length s)%nat
  end.
Proof.
  unfold JSON.lex. pose proof (skip_ws_le s) as Hle.
  destruct (String.prefix "null" (JSON.skip_ws s)) eqn:H1.
  { apply prefix_length in H1. rewrite skip_length. simpl in H1. lia. }
  destruct (String.prefix "true" (JSON.skip_ws s)) eqn:H2.
  { apply prefix_length in H2. rewrite skip_length. simpl in H2. lia. }
  destruct (String.prefix "false" (JSON.skip_ws s)) eqn:H3.
  { apply prefix_length in H3. rewrite skip_length. simpl in H3. lia. }
  destruct (JSON.skip_ws s) as [|c rest]; [done|]. simpl in Hle.
  repeat (match goal with
          | |- context [if ?b then _ else _] => destruct b
          end); simpl; lia.
Qed.

Lemma parse_value_S n s :
  JSON.parse_value (S n) s =
    match JSON.lex s with
    | JSON.TLiteral v rest => Some (v, rest)
    | JSON.TQuote rest =>
        match JSON.parse_string_body rest with
        | Some (str, after) => Some (VStr str, after)
        | None => None
        end
    | JSON.TBracket rest =>
        match JSON.starts "]" (JSON.skip_ws rest) with
        | Some after => Some (VArr [], after)
        | None =>
            match JSON.parse_elements n (JSON.skip_ws rest) with
            | Some (l, after) => Some (VArr l, after)
            | None => None
            end
        end
    | JSON.TBrace rest =>
        match JSON.starts "}" (JSON.skip_ws rest) with
        | Some after => Some (VObj [], after)
        | None =>
            match JSON.parse_members n (JSON.skip_ws rest) with
            | Some (o, after) => Some (VObj o, after)
            | None => None
            end
        end
    | JSON.TMinus rest =>
        match JSON.parse_digits rest with
        | Some (z, after) => Some (VNum (Num (- z)%Z), after)
        | None => None
        end
    | JSON.TOther t =>
        match JSON.parse_digits t with
        | Some (z, after) => Some (VNum (Num z), after)
        | None => None
        end
    end.
Proof. reflexivity. Qed.

Lemma parse_elements_S n s :
  JSON.parse_elements (S n) s =
    match JSON.parse_value n s with
    | Some (v, after) =>
        match JSON.starts "," (JSON.skip_ws after) with
        | Some more =>
            match JSON.parse_elements n more with
            | Some (l, rest) => Some (v :: l, rest)
            | None => None
            end
        | None =>
            match JSON.starts "]" (JSON.skip_ws after) with
            | Some rest => Some ([v], rest)
            | None => None
            end
        end
    | None => None
    end.
Proof. reflexivity. Qed.

Lemma parse_members_S n s :
  JSON.parse_members (S n) s =
    match JSON.starts "034" (JSON.skip_ws s) with
    | Some rest =>
        match JSON.parse_string_body rest with
        | Some (k, after) =>
            match JSON.starts ":" (JSON.skip_ws after) with
            | Some body =>
                match JSON.parse_value n body with
                | Some (v, after') =>
                    match JSON.starts "," (JSON.skip_ws after') with
                    | Some more =>
                        match JSON.parse_members n more with
                        | Some (o, rest') => Some (JSON.member_first k v o, rest')
                        | None => None
                        end
                    | None =>
                        match JSON.starts "}" (JSON.skip_ws after') with
                        | Some rest' => Some ([(k, v)], rest')
                        | None => None
                        end
                    end
                | None => None
                end
            | None => None
            end
        | None => None
        end
    | None => None
    end.
Proof. reflexivity. Qed.

(** More fuel changes no result. *)
Lemma parse_more_fuel n :
  ∀ m, (n ≤ m)%nat →
    (∀ s r, JSON.parse_value n s = Some r → JSON.parse_value m s = Some r)
    ∧ (∀ s r, JSON.parse_elements n s = Some r → JSON.parse_elements m s = Some r)
    ∧ (∀ s r, JSON.parse_members n s = Some r → JSON.parse_members m s = Some r).
Proof.
  induction n as [|n IH]; intros m Hle; [done|].
  destruct m as [|m]; [lia|].
  destruct (IH m ltac:(lia)) as (IHv & IHe & IHm).
  split; [|split]; intros s r.
  - rewrite !parse_value_S. destruct (JSON.lex s); try done.
    + destruct (JSON.starts _ _); [done|].
      destruct (JSON.parse_elements n _) as [[l after]|] eqn:He; [|done].
      by rewrite (IHe _ _ He).
    + destruct (JSON.starts _ _); [done|].
      destruct (JSON.parse_members n _) as [[o after]|] eqn:Hm; [|done].
      by rewrite (IHm _ _ Hm).
  - rewrite !parse_elements_S.
    destruct (JSON.parse_value n s) as [[v after]|] eqn:Hv; [|done].
    rewrite (IHv _ _ Hv). destruct (JSON.starts _ _); [|done].
    destruct (JSON.parse_elements n _) as [[l rest]|] eqn:He; [|done].
    by rewrite (IHe _ _ He).
  - rewrite !parse_members_S.
    destruct (JSON.starts _ _); [|done].
    destruct (JSON.parse_string_body _) as [[k after]|]; [|done].
    destruct (JSON.starts _ _); [|done].
    destruct (JSON.parse_value n _) as [[v after']|] eqn:Hv; [|done].
    rewrite (IHv _ _ Hv). destruct (JSON.starts _ _); [|done].
    destruct (JSON.parse_members n _) as [[o rest']|] eqn:Hm; [|done].
    by rewrite (IHm _ _ Hm).
Qed.

(** Rewriting with a result obtained on less fuel. *)
Local Ltac refuel H :=
  match type of H with
  | JSON.parse_value ?n ?s = Some ?r =>
      match goal with
      | |- context [JSON.parse_value ?m s] =>
          rewrite (proj1 (parse_more_fuel n m ltac:(lia)) s r H)
      end
  | JSON.parse_elements ?n ?s = Some ?r =>
      match goal with
      | |- context [JSON.parse_elements ?m s] =>
          rewrite (proj1 (proj2 (parse_more_fuel n m ltac:(lia))) s r H)
      end
  | JSON.parse_members ?n ?s = Some ?r =>
      match goal with
      | |- context [JSON.parse_members ?m s] =>
          rewrite (proj2 (proj2 (parse_more_fuel n m ltac:(lia))) s r H)
      end
  end.

(** A result consumes text, and twice the length of what it consumes is
    fuel enough for it. *)
Lemma parse_consumes n :
  (∀ s v rest, JSON.parse_value n s = Some (v, rest) →
     (String.length rest < String.length s)%nat
     ∧ JSON.parse_value (2 * (String.length s - String.length rest)) s = Some (v, rest))
  ∧ (∀ s l rest, JSON.parse_elements n s = Some (l, rest) →
       (String.length rest < String.length s)%nat
       ∧ JSON.parse_elements (2 * (String.length s - String.length rest)) s = Some (l, rest))
  ∧ (∀ s o rest, JSON.parse_members n s = Some (o, rest) →
       (String.length rest < String.length s)%nat
       ∧ JSON.parse_members (2 * (String.length s - String.length rest)) s = Some (o, rest)).
Proof.
  induction n as [|n (IHv & IHe & IHm)]; [done|].
  split; [|split].
  - intros s v rest. rewrite parse_value_S.
    pose proof (lex_shorter s) as Hlex.
    destruct (JSON.lex s) as [v0 r|r|r|r|r|t] eqn:Hl.
    + intros [= <- <-]. split; [done|].
      destruct (2 * (String.length s - String.length r)) as [|k] eqn:Hk; [lia|].
      by rewrite parse_value_S, Hl.
    + destruct (JSON.parse_string_body r) as [[str after]|] eqn:Hb; [|done].
      intros [= <- <-]. pose proof (parse_string_body_shorter _ _ _ Hb).
      split; [lia|].
      destruct (2 * (String.length s - String.length after)) as [|k] eqn:Hk; [lia|].
      by rewrite parse_value_S, Hl, Hb.
    + pose proof (skip_ws_le r) as Hws.
      destruct (JSON.starts "]" (JSON.skip_ws r)) as [after|] eqn:Hs.
      * intros [= <- <-]. apply starts_shorter in Hs as Hlen. split; [lia|].
        destruct (2 * (String.length s - String.length after)) as [|k] eqn:Hk; [lia|].
        by rewrite parse_value_S, Hl, Hs.
      * destruct (JSON.parse_elements n (JSON.skip_ws r)) as [[l after]|] eqn:He; [|done].
        intros [= <- <-]. destruct (IHe _ _ _ He) as [Hlt Hfuel]. split; [lia|].
        destruct (2 * (String.length s - String.length after)) as [|k] eqn:Hk; [lia|].
        rewrite parse_value_S, Hl, Hs.
        by refuel Hfuel.
    + pose proof (skip_ws_le r) as Hws.
      destruct (JSON.starts "}" (JSON.skip_ws r)) as [after|] eqn:Hs.
      * intros [= <- <-]. apply starts_shorter in Hs as Hlen. split; [lia|].
        destruct (2 * (String.length s - String.length after)) as [|k] eqn:Hk; [lia|].
        by rewrite parse_value_S, Hl, Hs.
      * destruct (JSON.parse_members n (JSON.skip_ws r)) as [[o after]|] eqn:Hm; [|done].
        intros [= <- <-]. destruct (IHm _ _ _ Hm) as [Hlt Hfuel]. split; [lia|].
        destruct (2 * (String.length s - String.length after)) as [|k] eqn:Hk; [lia|].
        rewrite parse_value_S, Hl, Hs.
        by refuel Hfuel.
    + destruct (JSON.parse_digits r) as [[z after]|] eqn:Hd; [|done].
      intros [= <- <-]. pose proof (parse_digits_shorter _ _ _ Hd). split; [lia|].
      destruct (2 * (String.length s - String.length after)) as [|k] eqn:Hk; [lia|].
      by rewrite parse_value_S, Hl, Hd.
    + destruct (JSON.parse_digits t) as [[z after]|] eqn:Hd; [|done].
      intros [= <- <-]. pose proof (parse_digits_shorter _ _ _ Hd). split; [lia|].
      destruct (2 * (String.length s - String.length after)) as [|k] eqn:Hk; [lia|].
      by rewrite parse_value_S, Hl, Hd.
  - intros s l rest. rewrite parse_elements_S.
    destruct (JSON.parse_value n s) as [[v after]|] eqn:Hv; [|done].
    destruct (IHv _ _ _ Hv) as [Hlt Hfuel].
    pose proof (skip_ws_le after) as Hws.
    destruct (JSON.starts "," (JSON.skip_ws after)) as [more|] eqn:Hc.
    + apply starts_shorter in Hc as Hlen.
      destruct (JSON.parse_elements n more) as [[l' rest']|] eqn:He; [|done].
      intros [= <- <-]. destruct (IHe _ _ _ He) as [Hlt' Hfuel']. split; [lia|].
      destruct (2 * (String.length s - String.length rest')) as [|k] eqn:Hk; [lia|].
      rewrite parse_elements_S.
      refuel Hfuel. rewrite Hc. by refuel Hfuel'.
    + destruct (JSON.starts "]" (JSON.skip_ws after)) as [rest'|] eqn:Hb; [|done].
      apply starts_shorter in Hb as Hlen. intros [= <- <-]. split; [lia|].
      destruct (2 * (String.length s - String.length rest')) as [|k] eqn:Hk; [lia|].
      rewrite parse_elements_S.
      refuel Hfuel. by rewrite Hc, Hb.
  - intros s o rest. rewrite parse_members_S.
    pose proof (skip_ws_le s) as Hws0.
    destruct (JSON.starts "034" (JSON.skip_ws s)) as [r|] eqn:Hq; [|done].
    apply starts_shorter in Hq as Hlenq.
    destruct (JSON.parse_string_body r) as [[k after]|] eqn:Hb; [|done].
    pose proof (parse_string_body_shorter _ _ _ Hb) as Hltb.
    pose proof (skip_ws_le after) as Hws1.
    destruct (JSON.starts ":" (JSON.skip_ws after)) as [body|] eqn:Hcolon; [|done].
    apply starts_shorter in Hcolon as Hlenc.
    destruct (JSON.parse_value n body) as [[v after']|] eqn:Hv; [|done].
    destruct (IHv _ _ _ Hv) as [Hlt Hfuel].
    pose proof (skip_ws_le after') as Hws2.
    destruct (JSON.starts "," (JSON.skip_ws after')) as [more|] eqn:Hc.
    + apply starts_shorter in Hc as Hlen.
      destruct (JSON.parse_members n more) as [[o' rest']|] eqn:Hm; [|done].
      intros [= <- <-]. destruct (IHm _ _ _ Hm) as [Hlt' Hfuel']. split; [lia|].
      destruct (2 * (String.length s - String.length rest')) as [|f] eqn:Hk; [lia|].
      rewrite parse_members_S, Hq, Hb, Hcolon.
      refuel Hfuel. rewrite Hc. by refuel Hfuel'.
    + destruct (JSON.starts "}" (JSON.skip_ws after')) as [rest'|] eqn:Hcl; [|done].
      apply starts_shorter in Hcl as Hlen. intros [= <- <-]. split; [lia|].
      destruct (2 * (String.length s - String.length rest')) as [|f] eqn:Hk; [lia|].
      rewrite parse_members_S, Hq, Hb, Hcolon.
      refuel Hfuel. by rewrite Hc, Hcl.
Qed.

(** The fuel [JSON.parse] gives is enough: a text that some fuel parses
    to the end is parsed by [JSON.parse], to the same value. *)
Theorem parse_fuel_enough n text v rest :
  JSON.parse_value n text = Some (v, rest) → JSON.skip_ws rest = "" → JSON.parse text = Some v.
Proof.
  intros Hp Hrest. unfold JSON.parse.
  destruct (proj1 (parse_consumes n) _ _ _ Hp) as [Hlt Hfuel].
  refuel Hfuel. by rewrite Hrest.
Qed.

Local Open Scope Z_scope.

(** ** The callback style and the connection *)

Section Properties.

Context {S : Type} `{!Utils} `{!Schema S}.

Implicit Types (w : world S) (cb : callback (S:=S)) (r : reply).

Lemma calls_back_unique (op : callback → action) w r1 w1 r2 w2 :
  calls_back op w r1 w1 → calls_back op w r2 w2 → r1 = r2 ∧ w1 = w2.
Proof.
  intros H1 H2. specialize (H1 report). rewrite (H2 report) in H1.
  unfold report in H1. by injection H1 as -> ->.
Qed.

Lemma send_log c (conn : Redis.client) :
  Redis.sent (snd (Redis.send c conn)) = (Redis.sent conn ++ [c])%list.
Proof. unfold Redis.send. destruct (Redis.fault conn c), c; reflexivity. Qed.

Lemma send_fault c (conn : Redis.client) :
  Redis.fault (snd (Redis.send c conn)) = Redis.fault conn.
Proof. unfold Redis.send. destruct (Redis.fault conn c), c; reflexivity. Qed.

(** A command gets one reply: an error when the connection refuses it,
    the server's answer otherwise. *)
Lemma connection_send_calls_back c w :
  calls_back (connection_send c) w
    (match Redis.send c (connection (this w)) with
     | (inl e, _) => Err e
     | (inr v, _) => Ok v
     end)
    (after c w).
Proof.
  intros cb. unfold connection_send, after.
  by destruct (Redis.send c (connection (this w))) as [[e|v] conn].
Qed.

Lemma send_refused c (conn : Redis.client) message :
  Redis.fault conn c = Some message →
  Redis.send c conn = (inl (ReplyError message), Redis.log c conn).
Proof. unfold Redis.send. by intros ->. Qed.

Lemma send_served c (conn : Redis.client) :
  Redis.fault conn c = None →
  Redis.send c conn =
    (inr (fst (Redis.execute c (Redis.log c conn))), snd (Redis.execute c (Redis.log c conn))).
Proof. unfold Redis.send. intros ->. by destruct (Redis.execute _ _). Qed.

Lemma send_error c (conn : Redis.client) e conn' :
  Redis.send c conn = (inl e, conn') → ∃ message, e = ReplyError message.
Proof.
  unfold Redis.send. destruct (Redis.fault conn c) as [message|].
  - intros [= <- _]. by exists message.
  - by destruct (Redis.execute _ _).
Qed.

Lemma after_heap c w : heap (after c w) = heap w.
Proof. reflexivity. Qed.

Lemma after_sent c w : sent_of (after c w) = (sent_of w ++ [c])%list.
Proof. apply send_log. Qed.

Lemma after_fault c w : fault_of (after c w) = fault_of w.
Proof. apply send_fault. Qed.

(** ** [_set] *)

(** The test [!ttl || ttl === -1] of [_set]. *)
Lemma plain_write_test ttl :
  negb (truthy (VNum ttl)) || number_eqb ttl (Num (-1)) = true ↔ no_expiry ttl.
Proof.
  unfold no_expiry. destruct ttl as [|z]; simpl.
  - split; [by left | done].
  - destruct (Z.eqb_spec z 0) as [->|Hz]; simpl.
    + split; [by right; left | done].
    + destruct (Z.eqb_spec z (-1)) as [->|Hm].
      * split; [by right; right | done].
      * split; [done|]. intros [|[[=]|[=]]]; done.
Qed.

Lemma _set_calls_back key data payload w :
  JSON.stringify data = Some payload →
  calls_back (_set key data) w
    (match Redis.send (write_command key data payload) (connection (this w)) with
     | (inl e, _) => Err e
     | (inr v, _) => Ok v
     end)
    (after (write_command key data payload) w).
Proof.
  intros Hs cb. unfold _set, write_command. rewrite Hs.
  destruct (negb _ || _); apply connection_send_calls_back.
Qed.

Lemma _set_circular key data w :
  JSON.stringify data = None →
  calls_back (_set key data) w (Err JSON.circular) w.
Proof. intros Hs cb. unfold _set. by rewrite Hs. Qed.


(** ** [find] *)

Lemma find_rejects cn c w :
  by_primary_key (primary_of cn w) c = false →
  calls_back (find cn c) w (Err (Error find_message)) w.
Proof. intros Hno cb. unfold find. fold (primary_of cn w). by rewrite Hno. Qed.

(** On a criteria by primary key, [find] sends one GET and calls back
    with what the reply makes it. *)
Lemma find_fetches cn c w :
  by_primary_key (primary_of cn w) c = true →
  calls_back (find cn c) w
    (match Redis.send (Redis.GET (key_of cn (get_prop (where_value c) (primary_of cn w)) w))
             (connection (this w)) with
     | (inl e, _) => Err e
     | (inr record, _) =>
         if negb (truthy record) then Ok (VArr [])
         else
           match JSON.parse (ToString record) with
           | None => Err JSON.unexpected
           | Some record' => Ok (VArr [VObj (parse (schema (this w)) (toLowerCase cn) record')])
           end
     end)
    (after (Redis.GET (key_of cn (get_prop (where_value c) (primary_of cn w)) w)) w).
Proof.
  intros Hyes cb. unfold find. fold (primary_of cn w). rewrite Hyes.
  fold (key_of cn (get_prop (where_value c) (primary_of cn w)) w).
  unfold connection_get. rewrite (connection_send_calls_back _ w _).
  destruct (Redis.send _ _) as [[e|record] conn]; [done|].
  destruct (negb (truthy record)); [done|].
  by destruct (JSON.parse (ToString record)).
Qed.

Lemma get_served key w :
  fault_of w (Redis.GET key) = None →
  Redis.send (Redis.GET key) (connection (this w)) =
    (inr (from_option VStr VNull (store_of w !! key)),
     Redis.log (Redis.GET key) (connection (this w))).
Proof. intros Hf. unfold fault_of in Hf. by rewrite (send_served _ _ Hf). Qed.

Lemma after_get_store key w : store_of (after (Redis.GET key) w) = store_of w.
Proof.
  unfold store_of, after, Redis.send.
  by destruct (Redis.fault (connection (this w)) (Redis.GET key)).
Qed.

Lemma truthy_string raw : raw ≠ "" → truthy (VStr raw) = true.
Proof. intros Hne. simpl. apply String.eqb_neq in Hne. by rewrite Hne. Qed.

(** [find] calls back exactly once, whatever the criteria and the
    connection do; the reply is never the primary-key-update error and the
    world differs by at most the GET. *)
Lemma find_inspect cn c w :
  ∃ r w', calls_back (find cn c) w r w'
    ∧ r ≠ Err PrimaryKeyUpdate
    ∧ (w' = w ∨ w' = after (Redis.GET (key_of cn (get_prop (where_value c) (primary_of cn w)) w)) w)
    ∧ (∀ v, r = Ok v →
         by_primary_key (primary_of cn w) c = true ∧
         (v = VArr [] ∨
          ∃ record, v = VArr [VObj (parse (schema (this w)) (toLowerCase cn) record)])).
Proof.
  destruct (by_primary_key (primary_of cn w) c) eqn:Hshape.
  - eexists _, _. split; [by apply find_fetches|].
    destruct (Redis.send _ _) as [[e|record] conn] eqn:Hsend.
    + apply send_error in Hsend as [message ->].
      split; [done|]. split; [by right|]. done.
    + destruct (negb (truthy record)).
      * split; [done|]. split; [by right|]. intros v [= <-]. split; [done | by left].
      * destruct (JSON.parse (ToString record)) as [record'|].
        -- split; [done|]. split; [by right|]. intros v [= <-].
           split; [done|]. right. by exists record'.
        -- split; [done|]. split; [by right|]. done.
  - exists (Err (Error find_message)), w. split; [by apply find_rejects|].
    split; [done|]. split; [by left|]. done.
Qed.


(** ** [drop] *)

Lemma and_then_skip (a : action (S:=S)) w : and_then skip a w = a w.
Proof. unfold and_then, skip. by destruct (a w). Qed.

(** The deletions of [drop]: all are sent, and the callback gets the
    first error. *)
Lemma each_deletion items failed (callback : option error → unit → action (S:=S)) w :
  async_each items
    (fun item (_ : unit) nextItem =>
       connection_del (ToString item) (fun r =>
         match r with
         | Err e => nextItem (Some e) tt
         | Ok _ => nextItem None tt
         end))
    tt failed callback w
  = callback
      (match failed with
       | Some e => Some e
       | None => ReplyError <$> first_refusal (fault_of w) items
       end)
      tt (after_deletions items w).
Proof.
  revert failed w. induction items as [|item rest IH]; intros failed w; simpl.
  - by destruct failed.
  - unfold connection_del. rewrite (connection_send_calls_back _ w _).
    destruct (fault_of w (Redis.DEL (ToString item))) as [message|] eqn:Hf; unfold fault_of in Hf.
    + rewrite (send_refused _ _ _ Hf). rewrite IH. by destruct failed.
    + rewrite (send_served _ _ Hf). rewrite IH, after_fault. by destruct failed.
Qed.


(** What [drop] does, by the reply to KEYS and to the deletions. *)
Lemma drop_runs cn relations cb w :
  let pattern := key_of cn (VStr "") w ++ "*" in
  drop cn relations cb w =
    match Redis.send (Redis.KEYS pattern) (connection (this w)) with
    | (inl e, _) =>
        and_then (cb (Err e)) (cb (Ok VUndefined)) (after (Redis.KEYS pattern) w)
    | (inr keys, _) =>
        match first_refusal (fault_of w) (elems_of keys) with
        | Some message =>
            and_then (cb (Err (ReplyError message))) (cb (Ok VUndefined))
              (after_deletions (elems_of keys) (after (Redis.KEYS pattern) w))
        | None =>
            cb (Ok VUndefined)
              (after_deletions (elems_of keys) (after (Redis.KEYS pattern) w))
        end
    end.
Proof.
  intros pattern. unfold drop, async_auto. fold (key_of cn (VStr "") w). fold pattern.
  unfold connection_keys. rewrite (connection_send_calls_back _ w _).
  destruct (Redis.send _ _) as [[e|keys] conn]; [done|].
  rewrite each_deletion, after_fault.
  destruct (first_refusal _ _); simpl; [done|].
  apply and_then_skip.
Qed.


(** ** [destroy] *)

(** A where clause without a condition is not a criteria by primary
    key. *)
Lemma by_primary_key_counts pk c :
  count (where_value c) = 0 → by_primary_key pk c = false.
Proof.
  unfold by_primary_key, where_value. destruct (where_ c) as [wh|]; [|done].
  intros ->. by rewrite !andb_false_r.
Qed.

Lemma del_served key w :
  fault_of w (Redis.DEL key) = None →
  Redis.send (Redis.DEL key) (connection (this w)) =
    (inr (VNum (Num (match store_of w !! key with Some _ => 1 | None => 0 end))),
     snd (Redis.execute (Redis.DEL key) (Redis.log (Redis.DEL key) (connection (this w))))).
Proof. intros Hf. unfold fault_of in Hf. by rewrite (send_served _ _ Hf). Qed.


(** ** [update] *)

Lemma primary_of_lower cn w : primary_of (toLowerCase cn) w = primary_of cn w.
Proof. unfold primary_of. by rewrite toLowerCase_idem. Qed.

Lemma key_of_lower cn v w : key_of (toLowerCase cn) v w = key_of cn v w.
Proof. unfold key_of. by rewrite toLowerCase_idem. Qed.

(** The guard of [update], spelled out. *)
Lemma primary_key_changes_true pk c vals :
  primary_key_changes pk c vals = inr true ↔
  present (obj_get pk vals) = true
  ∧ ∃ wh, where_ c = Some wh ∧ strict_eq (obj_get pk vals) (obj_get pk wh) = false.
Proof.
  unfold primary_key_changes.
  destruct (present (obj_get pk vals)); [|split; [done | by intros [? _]]].
  destruct (where_ c) as [wh|].
  - split.
    + intros [= Hne]. apply negb_true_iff in Hne. split; [done|]. by exists wh.
    + intros [_ (wh' & [= <-] & Hne)]. by rewrite Hne.
  - split; [done|]. by intros [_ (wh & ? & _)].
Qed.

Lemma update_rejects cn c values vals w :
  heap w !! values = Some vals →
  primary_key_changes (primary_of cn w) c vals = inr true →
  calls_back (update cn c values) w (Err PrimaryKeyUpdate) w.
Proof.
  intros Hheap Hguard cb. unfold update. rewrite Hheap.
  fold (primary_of cn w). by rewrite Hguard.
Qed.

Lemma update_throws cn c values vals w e :
  heap w !! values = Some vals →
  primary_key_changes (primary_of cn w) c vals = inl e →
  ∀ cb, update cn c values cb w = ([], Throw e w).
Proof.
  intros Hheap Hguard cb. unfold update. rewrite Hheap.
  fold (primary_of cn w). by rewrite Hguard.
Qed.

(** The world [update] goes on in once the guard has passed: the primary
    key is deleted from the caller's [values]. *)
Lemma update_continues cn c values vals w cb :
  heap w !! values = Some vals →
  primary_key_changes (primary_of cn w) c vals = inr false →
  update cn c values cb w =
    find (toLowerCase cn) c (fun r =>
      match r with
      | Err e => cb (Err e)
      | Ok records =>
          async_each (elems_of records)
            (fun item models nextItem w' =>
               _set (recordKey (schema (this w')) (toLowerCase cn)
                       (_primary (schema (this w)) (toLowerCase cn))
                       (get_prop item (primary_of cn w)))
                 (extend (fields_of item) (default [] (heap w' !! values)))
                 (fun r =>
                    match r with
                    | Err e => nextItem (Some e) models
                    | Ok _ =>
                        nextItem None
                          (models ++ [VObj (extend (fields_of item)
                                             (default [] (heap w' !! values)))])%list
                    end) w')
            [] None
            (fun err models =>
               match err with
               | Some e => cb (Err e)
               | None => cb (Ok (VArr models))
               end)
      end)
      (set_heap (<[values := obj_delete (primary_of cn w) vals]> (heap w)) w).
Proof.
  intros Hheap Hguard. unfold update. rewrite Hheap.
  fold (primary_of cn w). rewrite Hguard. reflexivity.
Qed.

(** The write of [update] for the one record [find] gave it. *)
Lemma update_one item key values
    (callback : option error → list value → action (S:=S)) w :
  async_each [VObj item]
    (fun item models nextItem w' =>
       _set (key w' item)
         (extend (fields_of item) (default [] (heap w' !! values)))
         (fun r =>
            match r with
            | Err e => nextItem (Some e) models
            | Ok _ =>
                nextItem None
                  (models ++ [VObj (extend (fields_of item)
                                     (default [] (heap w' !! values)))])%list
            end) w')
    [] None callback w
  = let merged := extend item (default [] (heap w !! values)) in
    match JSON.stringify merged with
    | None => callback (Some JSON.circular) [] w
    | Some payload =>
        match Redis.send (write_command (key w (VObj item)) merged payload)
                (connection (this w)) with
        | (inl e, _) =>
            callback (Some e) [] (after (write_command (key w (VObj item)) merged payload) w)
        | (inr _, _) =>
            callback None [VObj merged]
              (after (write_command (key w (VObj item)) merged payload) w)
        end
    end.
Proof.
  cbn [async_each fields_of]. cbv zeta.
  destruct (JSON.stringify (extend item (default [] (heap w !! values)))) as [payload|] eqn:Hs.
  - rewrite (_set_calls_back _ _ _ w Hs).
    by destruct (Redis.send _ _) as [[e|v] conn].
  - by rewrite (_set_circular _ _ w Hs).
Qed.

(** Once the guard has passed, [update] calls back exactly once; the
    primary key is gone from the caller's [values] by then, whatever the
    reply is, and the reply is never the primary-key-update error. *)
Lemma update_accepted cn c values vals w :
  heap w !! values = Some vals →
  primary_key_changes (primary_of cn w) c vals = inr false →
  ∃ r w', calls_back (update cn c values) w r w'
    ∧ r ≠ Err PrimaryKeyUpdate
    ∧ heap w' !! values = Some (obj_delete (primary_of cn w) vals)
    ∧ (by_primary_key (primary_of cn w) c = false → r = Err (Error find_message)).
Proof.
  intros Hheap Hguard.
  set (w1 := set_heap (<[values := obj_delete (primary_of cn w) vals]> (heap w)) w).
  destruct (find_inspect (toLowerCase cn) c w1) as (r1 & wf & Hfind & Hne & Hwf & Hok).
  assert (Hheapf : heap wf !! values = Some (obj_delete (primary_of cn w) vals)).
  { destruct Hwf as [->| ->]; [|rewrite after_heap]; apply lookup_insert_eq. }
  assert (Hshape : by_primary_key (primary_of cn w) c = false →
                   r1 = Err (Error find_message)).
  { intros Hno. rewrite <- (primary_of_lower cn w) in Hno.
    change (primary_of (toLowerCase cn) w) with (primary_of (toLowerCase cn) w1) in Hno.
    by destruct (calls_back_unique _ _ _ _ _ _ Hfind (find_rejects _ _ _ Hno)). }
  destruct r1 as [e|v].
  - exists (Err e), wf. split; [|done].
    intros cb. rewrite (update_continues _ _ _ _ _ _ Hheap Hguard). fold w1.
    by rewrite (Hfind _).
  - destruct (Hok v eq_refl) as [Hyes [->|[record ->]]].
    + exists (Ok (VArr [])), wf. split.
      * intros cb. rewrite (update_continues _ _ _ _ _ _ Hheap Hguard). fold w1.
        by rewrite (Hfind _).
      * split; [done|]. split; [done|]. intros Hno. by apply Hshape in Hno.
    + set (item := parse (schema (this w1)) (toLowerCase (toLowerCase cn)) record) in *.
      set (key := fun (w' : world S) (i : value) =>
             recordKey (schema (this w')) (toLowerCase cn)
               (_primary (schema (this w)) (toLowerCase cn))
               (get_prop i (primary_of cn w))).
      assert (Hrun : ∀ cb, update cn c values cb w =
        async_each [VObj item]
          (fun item models nextItem w' =>
             _set (key w' item)
               (extend (fields_of item) (default [] (heap w' !! values)))
               (fun r =>
                  match r with
                  | Err e => nextItem (Some e) models
                  | Ok _ =>
                      nextItem None
                        (models ++ [VObj (extend (fields_of item)
                                           (default [] (heap w' !! values)))])%list
                  end) w')
          [] None
          (fun err models =>
             match err with
             | Some e => cb (Err e)
             | None => cb (Ok (VArr models))
             end) wf).
      { intros cb. rewrite (update_continues _ _ _ _ _ _ Hheap Hguard). fold w1.
        by rewrite (Hfind _). }
      destruct (JSON.stringify (extend item (default [] (heap wf !! values))))
        as [payload|] eqn:Hs.
      * destruct (Redis.send
                    (write_command (key wf (VObj item))
                       (extend item (default [] (heap wf !! values))) payload)
                    (connection (this wf))) as [[e|v] conn] eqn:Hsend.
        -- exists (Err e), (after (write_command (key wf (VObj item))
                       (extend item (default [] (heap wf !! values))) payload) wf).
           split.
           { intros cb. rewrite Hrun, update_one. cbv zeta. by rewrite Hs, Hsend. }
           apply send_error in Hsend as [message ->].
           split; [done|]. split; [by rewrite after_heap|].
           intros Hno. by apply Hshape in Hno.
        -- exists (Ok (VArr [VObj (extend item (default [] (heap wf !! values)))])),
             (after (write_command (key wf (VObj item))
                       (extend item (default [] (heap wf !! values))) payload) wf).
           split.
           { intros cb. rewrite Hrun, update_one. cbv zeta. by rewrite Hs, Hsend. }
           split; [done|]. split; [by rewrite after_heap|].
           intros Hno. by apply Hshape in Hno.
      * exists (Err JSON.circular), wf. split.
        { intros cb. rewrite Hrun, update_one. cbv zeta. by rewrite Hs. }
        split; [done|]. split; [done|]. intros Hno. by apply Hshape in Hno.
Qed.

(** The path of [update] on which everything succeeds: the record found
    under the key is merged with the values and written back. *)
Lemma update_merges cn c values vals w raw record payload :
  let pk := primary_of cn w in
  let key := key_of cn (get_prop (where_value c) pk) w in
  let item := parse (schema (this w)) (toLowerCase cn) record in
  let merged := extend item (obj_delete pk vals) in
  let write := write_command (key_of cn (obj_get pk item) w) merged payload in
  let w1 := set_heap (<[values := obj_delete pk vals]> (heap w)) w in
  heap w !! values = Some vals →
  primary_key_changes pk c vals = inr false →
  by_primary_key pk c = true →
  fault_of w (Redis.GET key) = None →
  store_of w !! key = Some raw → raw ≠ "" → JSON.parse raw = Some record →
  JSON.stringify merged = Some payload →
  fault_of w write = None →
  calls_back (update cn c values) w (Ok (VArr [VObj merged]))
    (after write (after (Redis.GET key) w1)).
Proof.
  intros pk key item merged write w1 Hheap Hguard Hshape Hfg Hraw Hne Hparse Hs Hfw cb.
  rewrite (update_continues _ _ _ _ _ _ Hheap Hguard). fold pk. fold w1.
  assert (Hshape1 : by_primary_key (primary_of (toLowerCase cn) w1) c = true).
  { by rewrite primary_of_lower. }
  rewrite (find_fetches _ _ _ Hshape1 _).
  rewrite primary_of_lower, key_of_lower, toLowerCase_idem.
  change (primary_of cn w1) with pk.
  change (key_of cn (get_prop (where_value c) pk) w1) with key.
  change (schema (this w1)) with (schema (this w)).
  rewrite (get_served key w1 Hfg).
  change (store_of w1) with (store_of w). rewrite Hraw.
  change (from_option VStr VNull (Some raw)) with (VStr raw).
  rewrite (truthy_string _ Hne). cbn [negb ToString]. rewrite Hparse.
  fold item. cbn [elems_of].
  set (keyf := fun (w' : world S) (i : value) =>
         recordKey (schema (this w')) (toLowerCase cn)
           (_primary (schema (this w)) (toLowerCase cn)) (get_prop i pk)).
  change (async_each [VObj item] _ [] None ?k ?wf)
    with (async_each [VObj item]
            (fun item models nextItem w' =>
               _set (keyf w' item)
                 (extend (fields_of item) (default [] (heap w' !! values)))
                 (fun r =>
                    match r with
                    | Err e => nextItem (Some e) models
                    | Ok _ =>
                        nextItem None
                          (models ++ [VObj (extend (fields_of item)
                                             (default [] (heap w' !! values)))])%list
                    end) w')
            [] None k wf).
  rewrite update_one. cbv zeta.
  rewrite after_heap. change (heap w1) with (<[values := obj_delete pk vals]> (heap w)).
  rewrite lookup_insert_eq.
  change (default [] (Some (obj_delete pk vals))) with (obj_delete pk vals).
  fold merged. rewrite Hs.
  change (keyf (after (Redis.GET key) w1) (VObj item)) with (key_of cn (obj_get pk item) w).
  fold write.
  assert (Hfw' : Redis.fault (connection (this (after (Redis.GET key) w1))) write = None).
  { change (fault_of (after (Redis.GET key) w1) write = None). by rewrite after_fault. }
  by rewrite (send_served _ _ Hfw').
Qed.

Lemma write_stored key data payload w :
  fault_of w (write_command key data payload) = None →
  store_of (after (write_command key data payload) w) !! key = Some payload.
Proof.
  unfold fault_of, store_of, after. intros Hf. rewrite (send_served _ _ Hf).
  unfold write_command. destruct (negb _ || _); simpl; apply lookup_insert_eq.
Qed.

(** C3: [update] ends in the primary-key-update error exactly when the
    values hold a present primary key that differs from the one of
    [criteria.where].  A primary key equal to the criteria's is accepted:
    it is removed from the values before the merge, so the record written
    back keeps the primary key of the record found. *)
Theorem update_forbids_primary_key_change cn c values vals w :
  let pk := primary_of cn w in
  heap w !! values = Some vals →
  ((∃ w', calls_back (update cn c values) w (Err PrimaryKeyUpdate) w')
   ↔ present (obj_get pk vals) = true
     ∧ ∃ wh, where_ c = Some wh ∧ strict_eq (obj_get pk vals) (obj_get pk wh) = false)
  ∧ (∀ wh, where_ c = Some wh →
       strict_eq (obj_get pk vals) (obj_get pk wh) = true →
       ∃ r w', calls_back (update cn c values) w r w'
         ∧ r ≠ Err PrimaryKeyUpdate
         ∧ heap w' !! values = Some (obj_delete pk vals))
  ∧ (∀ raw record payload,
       let key := key_of cn (get_prop (where_value c) pk) w in
       let item := parse (schema (this w)) (toLowerCase cn) record in
       let merged := extend item (obj_delete pk vals) in
       let write := write_command (key_of cn (obj_get pk item) w) merged payload in
       let w1 := set_heap (<[values := obj_delete pk vals]> (heap w)) w in
       primary_key_changes pk c vals = inr false →
       by_primary_key pk c = true →
       fault_of w (Redis.GET key) = None →
       store_of w !! key = Some raw → raw ≠ "" → JSON.parse raw = Some record →
       JSON.stringify merged = Some payload →
       fault_of w write = None →
       calls_back (update cn c values) w (Ok (VArr [VObj merged]))
         (after write (after (Redis.GET key) w1))
       ∧ obj_get pk merged = obj_get pk item
       ∧ store_of (after write (after (Redis.GET key) w1))
           !! key_of cn (obj_get pk item) w = Some payload).
Proof.
  intros pk Hheap. split; [|split].
  - rewrite <- primary_key_changes_true. split.
    + intros [w' Hcb].
      destruct (primary_key_changes pk c vals) as [e|[|]] eqn:Hguard; [|done|].
      * specialize (Hcb report). by rewrite (update_throws _ _ _ _ _ _ Hheap Hguard) in Hcb.
      * destruct (update_accepted _ _ _ _ _ Hheap Hguard) as (r & w2 & Hcb2 & Hne & _).
        by destruct (calls_back_unique _ _ _ _ _ _ Hcb Hcb2) as [<- _].
    + intros Hguard. exists w. by eapply update_rejects.
  - intros wh Hwh Heq.
    assert (Hguard : primary_key_changes pk c vals = inr false).
    { unfold primary_key_changes. rewrite Hwh, Heq. by destruct (present _). }
    destruct (update_accepted _ _ _ _ _ Hheap Hguard) as (r & w' & Hcb & Hne & Hh & _).
    by exists r, w'.
  - intros raw record payload key item merged write w1
      Hguard Hshape Hfg Hraw Hne Hparse Hs Hfw.
    split; [|split].
    + by eapply update_merges.
    + apply obj_get_extend_delete.
    + apply write_stored. by rewrite after_fault.
Qed.

(** C9: [update] deletes the primary key from the values object of the
    caller before it resolves the criteria: by the time it calls back
    the key is gone from the object, whatever the outcome, so too when
    [find] rejects the criteria.  Only the guard on the primary key,
    which comes first, ends the call with the values as they were. *)
Theorem update_mutates_values cn c values vals w :
  let pk := primary_of cn w in
  heap w !! values = Some vals →
  (primary_key_changes pk c vals = inr false →
     ∃ r w', calls_back (update cn c values) w r w'
       ∧ heap w' !! values = Some (obj_delete pk vals)
       ∧ obj_has pk (obj_delete pk vals) = false
       ∧ (by_primary_key pk c = false → r = Err (Error find_message)))
  ∧ (primary_key_changes pk c vals = inr true →
       calls_back (update cn c values) w (Err PrimaryKeyUpdate) w).
Proof.
  intros pk Hheap. split.
  - intros Hguard.
    destruct (update_accepted _ _ _ _ _ Hheap Hguard) as (r & w' & Hcb & _ & Hh & Hrej).
    exists r, w'. split; [done|]. split; [done|]. split; [apply obj_has_delete | done].
  - intros Hguard. by eapply update_rejects.
Qed.

(** C10: with a present primary key among the values and no [where] in
    the criteria, [update] throws before it calls back; [find] reports
    such a criteria to its callback, and so does [destroy] unless it
    takes it for a where clause without a condition. *)
Theorem update_throws_without_where cn c values vals w :
  heap w !! values = Some vals →
  present (obj_get (primary_of cn w) vals) = true →
  where_ c = None →
  (∀ cb, update cn c values cb w
         = ([], Throw (TypeError "Cannot read property of undefined") w))
  ∧ calls_back (find cn c) w (Err (Error find_message)) w
  ∧ (count (where_value c) ≠ 0 →
       calls_back (destroy cn c) w (Err (Error destroy_message)) w).
Proof.
  intros Hheap Hpresent Hwhere.
  assert (Hshape : by_primary_key (primary_of cn w) c = false).
  { unfold by_primary_key. by rewrite Hwhere. }
  split; [|split].
  - intros cb. eapply update_throws; [done|].
    unfold primary_key_changes. by rewrite Hpresent, Hwhere.
  - by apply find_rejects.
  - intros Hcount cb. unfold destroy. fold (primary_of cn w).
    rewrite Hshape. apply Z.eqb_neq in Hcount. by rewrite Hcount.
Qed.

(** ** The collections marked as defined *)














(** ** [describe] *)


(** C8: the marks of [define] are kept under the name as it is spelled.
    A collection defined under one spelling and described under another
    with the same lower-cased name is answered null, where the same
    spelling in both calls answers the description. *)
Theorem define_then_describe_other_spelling N M definition desc w :
  toLowerCase N = toLowerCase M → N ≠ M →
  M ∉ definedCollections (this w) →
  retrieve (toLowerCase M)
    (registerCollection (toLowerCase M) definition (schema (this w))) = Some desc →
  Object_keys desc ≠ [] →
  (∃ w', define N definition (fun _ => describe M report) w = ([Ok VNull], Normal w'))
  ∧ (∃ w', define M definition (fun _ => describe M report) w
           = ([Ok (VObj desc)], Normal w')).
Proof.
  intros Hlower Hne Hnot Hdesc Hfull. split.
  - eexists. unfold define, describe. simpl. rewrite Hlower, Hdesc.
    rewrite bool_decide_eq_false_2; [reflexivity|].
    intros Hin. apply elem_of_union in Hin as [Hin|Hin]; [|done].
    apply elem_of_singleton in Hin. congruence.
  - eexists. unfold define, describe. simpl. rewrite Hdesc.
    rewrite bool_decide_eq_true_2 by (apply elem_of_union; left; by apply elem_of_singleton).
    simpl. destruct (Object_keys desc); [done | reflexivity].
Qed.

(** X19: the methods that read and write records, and [configure], take
    the collection by its lower-cased name only: two spellings of a name
    that differ in case are the same collection to them. *)
Lemma records_ignore_case N M :
  toLowerCase N = toLowerCase M →
  (∀ c cb w, find N c cb w = find M c cb w)
  ∧ (∀ data cb w, create N data cb w = create M data cb w)
  ∧ (∀ c values cb w, update N c values cb w = update M c values cb w)
  ∧ (∀ relations cb w, drop N relations cb w = drop M relations cb w)
  ∧ (∀ c cb w, destroy N c cb w = destroy M c cb w)
  ∧ (∀ s w, configure N s w = configure M s w).
Proof.
  intros Hlower.
  assert (Hdrop : ∀ relations cb w, drop N relations cb w = drop M relations cb w).
  { intros. unfold drop. by rewrite Hlower. }
  repeat split; intros; try apply Hdrop.
  - unfold find. by rewrite Hlower.
  - unfold create. by rewrite Hlower.
  - unfold update. by rewrite Hlower.
  - unfold destroy. rewrite Hlower. by rewrite Hdrop.
  - unfold configure. by rewrite Hlower.
Qed.

(** ** [create] *)

Lemma text_not_empty data payload : JSON.stringify data = Some payload → payload ≠ "".
Proof. intros Hs. by destruct (stringify_members _ _ Hs) as (ms & _ & ->). Qed.

Lemma after_write_store key data payload w :
  fault_of w (write_command key data payload) = None →
  store_of (after (write_command key data payload) w) = <[key := payload]> (store_of w).
Proof.
  unfold fault_of, store_of, after. intros Hf. rewrite (send_served _ _ Hf).
  unfold write_command. by destruct (negb _ || _).
Qed.

(** [create] when the connection serves it: the text of the data is
    stored under the sanitized key, read back and parsed. *)
Lemma create_stores cn data payload record w :
  let written :=
    sanitize (recordKey (schema (this w)) (replaceSpaces (toLowerCase cn))
                (_primary (schema (this w)) (toLowerCase cn))
                (obj_get (primary_of cn w) data)) in
  let w' := after (Redis.GET written) (after (write_command written data payload) w) in
  (∀ k, fault_of w k = None) →
  JSON.stringify data = Some payload →
  JSON.parse payload = Some record →
  calls_back (create cn data) w
    (Ok (VObj (parse (schema (this w)) (replaceSpaces (toLowerCase cn)) record))) w'
  ∧ store_of w' = <[written := payload]> (store_of w)
  ∧ fault_of w' = fault_of w.
Proof.
  intros written w' Hf Hs Hparse. split; [|split].
  - intros cb. unfold create. fold (primary_of cn w). fold written.
    rewrite (_set_calls_back _ _ _ w Hs).
    pose proof (Hf (write_command written data payload)) as Hfw. unfold fault_of in Hfw.
    rewrite (send_served _ _ Hfw).
    unfold connection_get. rewrite (connection_send_calls_back _ (after _ w) _).
    rewrite get_served by (by rewrite after_fault).
    rewrite after_write_store by done. rewrite lookup_insert_eq.
    change (from_option VStr VNull (Some payload)) with (VStr payload).
    cbn [ToString]. by rewrite Hparse.
  - unfold w'. rewrite after_get_store. by apply after_write_store.
  - unfold w'. by rewrite !after_fault.
Qed.


(** X20: when sanitizing and replacing spaces leave the key and the name
    as they are, a record that was created comes back: the [find] by its
    primary key answers the record [create] answered. *)
Lemma create_then_find_round_trip cn data payload record w :
  let pk := primary_of cn w in
  let read := key_of cn (obj_get pk data) w in
  let c := {| where_ := Some [(pk, obj_get pk data)] |} in
  (∀ k, fault_of w k = None) →
  JSON.stringify data = Some payload →
  JSON.parse payload = Some record →
  by_primary_key pk c = true →
  replaceSpaces (toLowerCase cn) = toLowerCase cn →
  sanitize read = read →
  ∃ created w',
    create cn data (fun r1 => find cn c (fun r2 => and_then (report r1) (report r2))) w
    = ([Ok (VObj created); Ok (VArr [VObj created])], Normal w').
Proof.
  intros pk read c Hf Hs Hparse Hshape Hname Hkey.
  destruct (create_stores cn data payload record w Hf Hs Hparse) as (Hcreate & Hstore & Hfault).
  fold pk in Hcreate, Hstore, Hfault. rewrite Hname in Hcreate, Hstore, Hfault.
  fold (key_of cn (obj_get pk data) w) in Hcreate, Hstore, Hfault.
  fold read in Hcreate, Hstore, Hfault. rewrite Hkey in Hcreate, Hstore, Hfault.
  eexists _, _. rewrite (Hcreate _).
  set (w2 := after (Redis.GET read) _) in *.
  assert (Hget : get_prop (where_value c) pk = obj_get pk data).
  { simpl. by rewrite String.eqb_refl. }
  assert (Hshape2 : by_primary_key (primary_of cn w2) c = true) by exact Hshape.
  rewrite (find_fetches _ _ _ Hshape2 _).
  change (primary_of cn w2) with pk. rewrite Hget.
  change (key_of cn (obj_get pk data) w2) with read.
  rewrite get_served by (by rewrite Hfault).
  rewrite Hstore, lookup_insert_eq.
  change (from_option VStr VNull (Some payload)) with (VStr payload).
  rewrite (truthy_string _ (text_not_empty _ _ Hs)). cbn [negb ToString].
  rewrite Hparse. reflexivity.
Qed.

End Properties.

(* ===================================================================== *)
(** * More properties of the methods *)
(* ===================================================================== *)

Section Coverage.

Context {S : Type} `{!Utils} `{!Schema S}.

Implicit Types (w : world S) (cb : callback (S:=S)) (r : reply).

(** ** What the methods leave as it was *)

Section Kept.

Variable R : world S → world S → Prop.
Hypothesis R_connection : ∀ w0 w conn, R w0 w → R w0 (set_connection conn w).

Lemma kept_and_then (a b : action (S:=S)) : keeps R a → keeps R b → keeps R (and_then a b).
Proof.
  intros Ha Hb w0 w HR. unfold and_then. specialize (Ha w0 w HR).
  destruct (a w) as [calls [w'|e w']]; simpl in *; [|done].
  specialize (Hb w0 w' Ha). by destruct (b w') as [calls' c'].
Qed.

Lemma kept_connection_send c cb :
  (∀ r, keeps R (cb r)) → keeps R (connection_send c cb).
Proof using R_connection.
  intros Hcb w0 w HR. unfold connection_send.
  destruct (Redis.send c (connection (this w))) as [[e|v] conn];
    apply Hcb, R_connection, HR.
Qed.

Lemma kept_set key data cb : (∀ r, keeps R (cb r)) → keeps R (_set key data cb).
Proof using R_connection.
  intros Hcb. unfold _set. destruct (JSON.stringify data); [|done].
  destruct (negb _ || _); by apply kept_connection_send.
Qed.

Lemma kept_async_each {A} items
    (iterator : value → A → (option error → A → action (S:=S)) → action) st failed callback :
  (∀ item st' next, (∀ e s, keeps R (next e s)) → keeps R (iterator item st' next)) →
  (∀ e s, keeps R (callback e s)) →
  keeps R (async_each items iterator st failed callback).
Proof using R_connection.
  intros Hit Hcb. revert st failed.
  induction items as [|item rest IH]; intros st failed; simpl; [done|].
  apply Hit. intros e s. apply IH.
Qed.

Lemma kept_find cn c cb : (∀ r, keeps R (cb r)) → keeps R (find cn c cb).
Proof using R_connection.
  intros Hcb w0 w HR. unfold find.
  destruct (by_primary_key _ c); [|by apply Hcb].
  revert HR. apply kept_connection_send. intros [e|record]; [done|].
  destruct (negb (truthy record)); [done|].
  destruct (JSON.parse (ToString record)); [|done].
  intros w1 w' HR. by apply Hcb.
Qed.

Lemma kept_drop cn relations cb : (∀ r, keeps R (cb r)) → keeps R (drop cn relations cb).
Proof using R_connection.
  intros Hcb w0 w. unfold drop, async_auto.
  apply kept_connection_send. intros [e|keys].
  - by apply kept_and_then.
  - apply kept_async_each.
    + intros item st' next Hnext. apply kept_connection_send. by intros [e|v].
    + intros [e|] _; apply kept_and_then; try done. by intros w1 w'.
Qed.

Lemma kept_create cn data cb : (∀ r, keeps R (cb r)) → keeps R (create cn data cb).
Proof using R_connection.
  intros Hcb w0 w. unfold create. apply kept_set. intros [e|v]; [done|].
  apply kept_connection_send. intros [e|values]; [done|].
  destruct (JSON.parse (ToString values)); [|done].
  intros w1 w' HR. by apply Hcb.
Qed.

Lemma kept_destroy cn c cb : (∀ r, keeps R (cb r)) → keeps R (destroy cn c cb).
Proof using R_connection.
  intros Hcb w0 w HR. unfold destroy. destruct (by_primary_key _ c).
  - revert HR. apply kept_connection_send. intros [e|record]; [done|].
    destruct (negb (truthy record)); [done|].
    apply kept_connection_send. by intros [e|v].
  - destruct (count (where_value c) =? 0); [by apply kept_drop | by apply Hcb].
Qed.

Lemma kept_update cn c values cb :
  (∀ w0 w o, R w0 w → R w0 (set_heap (<[values := o]> (heap w)) w)) →
  (∀ r, keeps R (cb r)) → keeps R (update cn c values cb).
Proof using R_connection.
  intros R_heap Hcb w0 w HR. unfold update.
  destruct (heap w !! values) as [vals|]; [|done].
  destruct (primary_key_changes _ c vals) as [e|[|]]; [done|by apply Hcb|].
  unfold async_auto.
  match goal with
  | |- context [find ?n c ?k ?w1] =>
      assert (Hk : keeps R (find n c k)); [|by apply Hk, R_heap]
  end.
  apply kept_find. intros [e|records]; [done|].
  apply kept_async_each; [|by intros [e|] models].
  intros item st' next Hnext w1 w' HR'. revert HR'. apply kept_set. by intros [e|v].
Qed.

End Kept.

Lemma untouched_connection l (w0 w : world S) conn :
  untouched l w0 w → untouched l w0 (set_connection conn w).
Proof. by intros (Hs & Hd & Hh). Qed.

Lemma untouched_heap values (w0 w : world S) o :
  untouched (Some values) w0 w →
  untouched (Some values) w0 (set_heap (<[values := o]> (heap w)) w).
Proof.
  intros (Hs & Hd & Hh). split; [done|]. split; [done|].
  intros l' Hne. simpl. rewrite lookup_insert_ne by congruence. by apply Hh.
Qed.

(** A call that does not register a schema leaves the registry and the
    marks of [define] as they were, and of the objects of the caller it
    changes at most the values handed to [update]. *)
Lemma perform_untouched k w :
  registers k = false → untouched (handed k) w (world_of (snd (perform k w))).
Proof.
  intros Hk.
  assert (Hw : untouched (handed k) w w) by done.
  destruct k as [cn s| |cn|cn d|cn rel|cn c|cn data|cn c values|cn c];
    try discriminate; simpl perform.
  - unfold describe. by destruct (retrieve _ _).
  - revert Hw. apply kept_drop; [apply untouched_connection|]. by intros r w0 w1.
  - revert Hw. apply kept_find; [apply untouched_connection|]. by intros r w0 w1.
  - revert Hw. apply kept_create; [apply untouched_connection|]. by intros r w0 w1.
  - revert Hw. apply kept_update;
      [apply untouched_connection|apply untouched_heap|]. by intros r w0 w1.
  - revert Hw. apply kept_destroy; [apply untouched_connection|]. by intros r w0 w1.
Qed.

(** X1: no sequence of calls of [describe] and of the methods on records
    ([find], [create], [update], [destroy], [drop]) changes the registry
    or the marks of [define], whatever the connection replies and
    wherever an exception ends the sequence: [describe] answers after it
    what it answered before.  Of the objects of the caller, only those
    handed to an [update] may have changed. *)
Theorem record_calls_keep_registry calls w :
  forallb (fun k => negb (registers k)) calls = true →
  let w' := world_of (snd (lifetime calls w)) in
  schema (this w') = schema (this w)
  ∧ definedCollections (this w') = definedCollections (this w)
  ∧ (∀ l, (∀ k, In k calls → handed k ≠ Some l) → heap w' !! l = heap w !! l)
  ∧ ∀ cn, fst (describe cn report w') = fst (describe cn report w).
Proof.
  intros Hcalls w'.
  assert (Hkept : schema (this w') = schema (this w)
                  ∧ definedCollections (this w') = definedCollections (this w)
                  ∧ ∀ l, (∀ k, In k calls → handed k ≠ Some l) →
                         heap w' !! l = heap w !! l).
  { unfold w'. clear w'. revert w Hcalls.
    induction calls as [|k rest IH]; intros w Hcalls; [done|].
    simpl in Hcalls. apply andb_prop in Hcalls as [Hk Hrest].
    apply negb_true_iff in Hk.
    destruct (perform_untouched k w Hk) as (Hs & Hd & Hh).
    simpl lifetime. unfold and_then.
    destruct (perform k w) as [replies [w1|e w1]]; simpl in Hs, Hd, Hh.
    - destruct (IH w1 Hrest) as (Hs' & Hd' & Hh').
      destruct (lifetime rest w1) as [replies' c']. simpl in *.
      split; [congruence|]. split; [congruence|].
      intros l Hl. rewrite Hh' by (intros k' Hin; apply Hl; by right).
      apply Hh. intros Heq. by apply (Hl k); [left|].
    - simpl. split; [done|]. split; [done|].
      intros l Hl. apply Hh. intros Heq. by apply (Hl k); [left|]. }
  destruct Hkept as (Hs & Hd & Hh). split; [done|]. split; [done|]. split; [done|].
  intros cn. unfold describe. rewrite Hs, Hd. by destruct (retrieve _ _).
Qed.

(** ** [drop] *)

Lemma in_matching pattern (m : gmap string string) k :
  In k (Redis.matching pattern m) ↔ is_Some (m !! k) ∧ Redis.glob pattern k = true.
Proof.
  unfold Redis.matching.
  rewrite <- list_elem_of_In, list_elem_of_filter, list_elem_of_In, in_map_iff.
  split.
  - intros [Hg ([k' v] & <- & Hin)].
    apply list_elem_of_In, elem_of_map_to_list in Hin.
    split; [by exists v | by apply Is_true_true].
  - intros [[v Hv] Hg]. split; [by apply Is_true_true|].
    exists (k, v). split; [done|]. by apply list_elem_of_In, elem_of_map_to_list.
Qed.

Lemma after_del_served k w :
  fault_of w (Redis.DEL k) = None →
  store_of (after (Redis.DEL k) w) = delete k (store_of w).
Proof. intros Hf. unfold store_of, after. by rewrite (send_served _ _ Hf). Qed.

Lemma after_del_refused k w :
  fault_of w (Redis.DEL k) ≠ None →
  store_of (after (Redis.DEL k) w) = store_of w.
Proof.
  intros Hf. unfold store_of, after, fault_of in *.
  destruct (Redis.fault (connection (this w)) (Redis.DEL k)) as [m|] eqn:E; [|done].
  by rewrite (send_refused _ _ _ E).
Qed.

Lemma after_deletions_sent keys w :
  sent_of (after_deletions (map VStr keys) w) = (sent_of w ++ map Redis.DEL keys)%list.
Proof.
  revert w. induction keys as [|k rest IH]; intros w; simpl.
  - by rewrite app_nil_r.
  - by rewrite IH, after_sent, <- app_assoc.
Qed.

Lemma after_deletions_fault keys w :
  fault_of (after_deletions keys w) = fault_of w.
Proof.
  revert w. induction keys as [|k rest IH]; intros w; simpl; [done|].
  by rewrite IH, after_fault.
Qed.

Lemma after_deletions_schema keys w :
  schema (this (after_deletions keys w)) = schema (this w).
Proof.
  revert w. induction keys as [|k rest IH]; intros w; simpl; [done|]. by rewrite IH.
Qed.

(** Deletions add no key. *)
Lemma after_deletions_absent keys w k :
  store_of w !! k = None → store_of (after_deletions (map VStr keys) w) !! k = None.
Proof.
  revert w. induction keys as [|k' rest IH]; intros w Hnone; simpl; [done|].
  apply IH. destruct (fault_of w (Redis.DEL k')) as [m|] eqn:Hf.
  - rewrite after_del_refused by congruence. done.
  - rewrite after_del_served by done.
    destruct (decide (k' = k)) as [->|Hne];
      [apply lookup_delete_eq | by rewrite lookup_delete_ne].
Qed.

(** A key whose deletion is served is gone. *)
Lemma after_deletions_gone keys w k :
  In k keys → fault_of w (Redis.DEL k) = None →
  store_of (after_deletions (map VStr keys) w) !! k = None.
Proof.
  revert w. induction keys as [|k' rest IH]; intros w Hin Hf; simpl; [done|].
  destruct (decide (k' = k)) as [->|Hne].
  - apply after_deletions_absent. rewrite after_del_served by done. apply lookup_delete_eq.
  - destruct Hin as [->|Hin]; [done|]. apply IH; [done|]. by rewrite after_fault.
Qed.

(** The other keys, and those whose deletion is refused, stay. *)
Lemma after_deletions_stays keys w k :
  ¬ In k keys ∨ fault_of w (Redis.DEL k) ≠ None →
  store_of (after_deletions (map VStr keys) w) !! k = store_of w !! k.
Proof.
  revert w. induction keys as [|k' rest IH]; intros w Hk; simpl; [done|].
  rewrite IH.
  - destruct (decide (k' = k)) as [->|Hne].
    + destruct Hk as [Hnot|Hf]; [destruct Hnot; by left|].
      by rewrite after_del_refused.
    + destruct (fault_of w (Redis.DEL k')) as [m|] eqn:Hf.
      * rewrite after_del_refused by congruence. done.
      * rewrite after_del_served by done. by rewrite lookup_delete_ne.
  - rewrite after_fault. destruct Hk as [Hnot|Hf]; [left|by right].
    intros Hin. apply Hnot. by right.
Qed.

Lemma first_refusal_none fault keys :
  (∀ k, In k keys → fault (Redis.DEL k) = None) →
  first_refusal fault (map VStr keys) = None.
Proof.
  induction keys as [|k rest IH]; intros Hf; simpl; [done|].
  rewrite (Hf k) by (by left). apply IH. intros k' Hin. apply Hf. by right.
Qed.

(** [drop] once KEYS is served, with [report] for its callback. *)
Lemma drop_served cn relations w :
  let pattern := key_of cn (VStr "") w ++ "*" in
  let keys := Redis.matching pattern (store_of w) in
  let w' := after_deletions (map VStr keys) (after (Redis.KEYS pattern) w) in
  fault_of w (Redis.KEYS pattern) = None →
  drop cn relations report w =
    (match first_refusal (fault_of w) (map VStr keys) with
     | Some message => [Err (ReplyError message); Ok VUndefined]
     | None => [Ok VUndefined]
     end, Normal w').
Proof.
  intros pattern keys w' Hf. rewrite drop_runs. fold pattern.
  unfold fault_of in Hf. rewrite (send_served _ _ Hf). simpl.
  fold (store_of w). fold keys. fold w'.
  by destruct (first_refusal _ _).
Qed.

(** X2: [drop] sends a DEL for every key KEYS listed, in order, whether
    or not an earlier one was refused.  A key whose deletion is served is
    gone; a key whose deletion is refused, and every key that was not
    listed, holds what it held. *)
Theorem drop_attempts_every_deletion cn relations w :
  let pattern := key_of cn (VStr "") w ++ "*" in
  let keys := Redis.matching pattern (store_of w) in
  fault_of w (Redis.KEYS pattern) = None →
  ∃ w', snd (drop cn relations report w) = Normal w'
    ∧ sent_of w' = (sent_of w ++ Redis.KEYS pattern :: map Redis.DEL keys)%list
    ∧ (∀ k, In k keys → fault_of w (Redis.DEL k) = None → store_of w' !! k = None)
    ∧ (∀ k, In k keys → fault_of w (Redis.DEL k) ≠ None →
         store_of w' !! k = store_of w !! k)
    ∧ (∀ k, ¬ In k keys → store_of w' !! k = store_of w !! k).
Proof.
  intros pattern keys Hf.
  exists (after_deletions (map VStr keys) (after (Redis.KEYS pattern) w)).
  assert (Hstore : store_of (after (Redis.KEYS pattern) w) = store_of w).
  { unfold store_of, after. unfold fault_of in Hf. by rewrite (send_served _ _ Hf). }
  split; [by rewrite (drop_served cn relations w Hf)|].
  split; [by rewrite after_deletions_sent, after_sent, <- app_assoc|].
  split; [|split].
  - intros k Hin Hk. apply after_deletions_gone; [done|]. by rewrite after_fault.
  - intros k Hin Hk. rewrite after_deletions_stays, Hstore; [done|].
    right. by rewrite after_fault.
  - intros k Hnot. rewrite after_deletions_stays, Hstore; [done | by left].
Qed.

(** [drop] on a connection that refuses nothing, for any callback. *)
Lemma drop_without_refusal cn relations w :
  let pattern := key_of cn (VStr "") w ++ "*" in
  let w' := after_deletions (map VStr (Redis.matching pattern (store_of w)))
              (after (Redis.KEYS pattern) w) in
  (∀ c, fault_of w c = None) →
  calls_back (drop cn relations) w (Ok VUndefined) w'
  ∧ (∀ k, Redis.glob pattern k = true → store_of w' !! k = None)
  ∧ (∀ k, Redis.glob pattern k = false → store_of w' !! k = store_of w !! k)
  ∧ fault_of w' = fault_of w.
Proof.
  intros pattern w' Hf.
  set (keys := Redis.matching pattern (store_of w)) in *.
  assert (Hstore : store_of (after (Redis.KEYS pattern) w) = store_of w).
  { unfold store_of, after. pose proof (Hf (Redis.KEYS pattern)) as Hk.
    unfold fault_of in Hk. by rewrite (send_served _ _ Hk). }
  split; [|split; [|split]].
  - intros cb. rewrite drop_runs. fold pattern.
    pose proof (Hf (Redis.KEYS pattern)) as Hk. unfold fault_of in Hk.
    rewrite (send_served _ _ Hk). simpl. fold (store_of w). fold keys.
    rewrite first_refusal_none; [done|]. intros k _. apply Hf.
  - intros k Hg. destruct (store_of w !! k) as [v|] eqn:Hv.
    + apply after_deletions_gone; [|by rewrite after_fault].
      apply in_matching. split; [by exists v | done].
    + apply after_deletions_absent. by rewrite Hstore.
  - intros k Hg. unfold w'. rewrite after_deletions_stays, Hstore; [done|].
    left. intros Hin. apply in_matching in Hin as [_ Hin]. congruence.
  - unfold w'. by rewrite after_deletions_fault, after_fault.
Qed.

(** X3: on a connection that refuses nothing, [drop] calls back once,
    with no error, and no key that matches the pattern of the collection
    is left; the keys that do not match hold what they held. *)
Theorem drop_clears_collection cn relations w :
  let pattern := key_of cn (VStr "") w ++ "*" in
  (∀ c, fault_of w c = None) →
  ∃ w', drop cn relations report w = ([Ok VUndefined], Normal w')
    ∧ (∀ k, Redis.glob pattern k = true → store_of w' !! k = None)
    ∧ (∀ k, Redis.glob pattern k = false → store_of w' !! k = store_of w !! k)
    ∧ Redis.matching pattern (store_of w') = [].
Proof.
  intros pattern Hf.
  destruct (drop_without_refusal cn relations w Hf) as (Hcb & Hgone & Hstay & _).
  eexists. split; [by rewrite (Hcb report)|]. split; [exact Hgone|]. split; [exact Hstay|].
  set (left := Redis.matching pattern _).
  assert (Hnone : ∀ k, ¬ In k left).
  { intros k Hin. apply in_matching in Hin as [[v Hv] Hg].
    rewrite (Hgone k Hg) in Hv. done. }
  destruct left as [|k rest]; [done|]. destruct (Hnone k). by left.
Qed.

Lemma drop_refused cn relations w message :
  fault_of w (Redis.KEYS (key_of cn (VStr "") w ++ "*")) = Some message →
  drop cn relations report w
  = ([Err (ReplyError message); Ok VUndefined],
     Normal (after (Redis.KEYS (key_of cn (VStr "") w ++ "*")) w)).
Proof.
  intros Hf. rewrite drop_runs. unfold fault_of in Hf.
  by rewrite (send_refused _ _ _ Hf).
Qed.

(** X4: when the connection refuses KEYS, [drop] deletes nothing, and
    calls back with the error and then again with none. *)
Theorem drop_scan_refused cn relations w message :
  let pattern := key_of cn (VStr "") w ++ "*" in
  fault_of w (Redis.KEYS pattern) = Some message →
  ∃ w', drop cn relations report w
        = ([Err (ReplyError message); Ok VUndefined], Normal w')
    ∧ store_of w' = store_of w
    ∧ sent_of w' = (sent_of w ++ [Redis.KEYS pattern])%list.
Proof.
  intros pattern Hf. exists (after (Redis.KEYS pattern) w).
  split; [|split].
  - by apply drop_refused.
  - unfold store_of, after. unfold fault_of in Hf. by rewrite (send_refused _ _ _ Hf).
  - apply after_sent.
Qed.

(** X5: whatever the connection replies, the last call [drop] makes to
    its callback is the one with no error, and an error comes at most
    once before it: the caller is never left with an error alone. *)
Theorem drop_reports_success_last cn relations w :
  ∃ w', drop cn relations report w = ([Ok VUndefined], Normal w')
        ∨ ∃ message,
            drop cn relations report w
            = ([Err (ReplyError message); Ok VUndefined], Normal w').
Proof.
  destruct (fault_of w (Redis.KEYS (key_of cn (VStr "") w ++ "*"))) as [message|] eqn:Hf.
  - eexists. right. exists message. by apply drop_refused.
  - eexists. rewrite (drop_served cn relations w Hf).
    destruct (first_refusal _ _) as [message|]; [right; by exists message | by left].
Qed.

(** ** [find] and [destroy] *)

Lemma find_absent cn c w :
  let key := key_of cn (get_prop (where_value c) (primary_of cn w)) w in
  by_primary_key (primary_of cn w) c = true →
  fault_of w (Redis.GET key) = None → store_of w !! key = None →
  calls_back (find cn c) w (Ok (VArr [])) (after (Redis.GET key) w).
Proof.
  intros key Hshape Hf Hnone cb. rewrite (find_fetches cn c w Hshape).
  fold key. by rewrite (get_served _ _ Hf), Hnone.
Qed.

Lemma find_present cn c w raw record :
  let key := key_of cn (get_prop (where_value c) (primary_of cn w)) w in
  by_primary_key (primary_of cn w) c = true →
  fault_of w (Redis.GET key) = None → store_of w !! key = Some raw → raw ≠ "" →
  JSON.parse raw = Some record →
  calls_back (find cn c) w
    (Ok (VArr [VObj (parse (schema (this w)) (toLowerCase cn) record)]))
    (after (Redis.GET key) w).
Proof.
  intros key Hshape Hf Hsome Hne Hparse cb. rewrite (find_fetches cn c w Hshape).
  fold key. rewrite (get_served _ _ Hf), Hsome.
  change (from_option VStr VNull (Some raw)) with (VStr raw).
  rewrite (truthy_string _ Hne). cbn [negb ToString]. by rewrite Hparse.
Qed.



(** [destroy] of a record that is there, on a connection that serves the
    two commands. *)
Lemma destroy_deletes cn c w raw :
  let key := key_of cn (get_prop (where_value c) (primary_of cn w)) w in
  by_primary_key (primary_of cn w) c = true →
  fault_of w (Redis.GET key) = None → fault_of w (Redis.DEL key) = None →
  store_of w !! key = Some raw → raw ≠ "" →
  calls_back (destroy cn c) w (Ok (VStr raw))
    (after (Redis.DEL key) (after (Redis.GET key) w))
  ∧ store_of (after (Redis.DEL key) (after (Redis.GET key) w)) = delete key (store_of w).
Proof.
  intros key Hshape Hfg Hfd Hsome Hne. split.
  - intros cb. unfold destroy. fold (primary_of cn w). rewrite Hshape.
    fold (key_of cn (get_prop (where_value c) (primary_of cn w)) w). fold key.
    unfold connection_get. rewrite (connection_send_calls_back _ w _).
    rewrite (get_served _ _ Hfg), Hsome.
    change (from_option VStr VNull (Some raw)) with (VStr raw).
    rewrite (truthy_string _ Hne). cbn [negb].
    unfold connection_del. rewrite (connection_send_calls_back _ (after _ w) _).
    rewrite del_served by (by rewrite after_fault). done.
  - rewrite after_del_served by (by rewrite after_fault). by rewrite after_get_store.
Qed.

(** X6: a record that [destroy] has deleted is found no more: the
    [find] that follows, on the same criteria, answers the empty
    sequence. *)
Theorem destroy_then_find cn c w raw :
  let key := key_of cn (get_prop (where_value c) (primary_of cn w)) w in
  by_primary_key (primary_of cn w) c = true →
  fault_of w (Redis.GET key) = None → fault_of w (Redis.DEL key) = None →
  store_of w !! key = Some raw → raw ≠ "" →
  ∃ w',
    destroy cn c (fun r1 => find cn c (fun r2 => and_then (report r1) (report r2))) w
    = ([Ok (VStr raw); Ok (VArr [])], Normal w').
Proof.
  intros key Hshape Hfg Hfd Hsome Hne.
  destruct (destroy_deletes cn c w raw Hshape Hfg Hfd Hsome Hne) as [Hcb Hstore].
  fold key in Hcb, Hstore. eexists. rewrite (Hcb _).
  set (w2 := after (Redis.DEL key) _) in *.
  assert (Hshape2 : by_primary_key (primary_of cn w2) c = true) by exact Hshape.
  rewrite (find_absent cn c w2 Hshape2); [reflexivity| |].
  - change (fault_of w2 (Redis.GET key) = None). unfold w2. by rewrite !after_fault.
  - change (store_of w2 !! key = None). rewrite Hstore. apply lookup_delete_eq.
Qed.

(** X7: [destroy] on a where clause without a condition removes the
    records of the collection: on a connection that refuses nothing, a
    [find] that follows it, by a primary key whose storage key matches
    the pattern of the collection, answers the empty sequence. *)
Theorem destroy_all_then_find cn c_all c w :
  let pattern := key_of cn (VStr "") w ++ "*" in
  let key := key_of cn (get_prop (where_value c) (primary_of cn w)) w in
  count (where_value c_all) = 0 →
  (∀ k, fault_of w k = None) →
  by_primary_key (primary_of cn w) c = true →
  Redis.glob pattern key = true →
  ∃ w',
    destroy cn c_all (fun r1 => find cn c (fun r2 => and_then (report r1) (report r2))) w
    = ([Ok VUndefined; Ok (VArr [])], Normal w').
Proof.
  intros pattern key Hcount Hf Hshape Hglob.
  destruct (drop_without_refusal cn (VStr "") w Hf) as (Hcb & Hgone & _ & Hfault).
  fold pattern in Hcb, Hgone, Hfault. eexists.
  unfold destroy. fold (primary_of cn w).
  rewrite (by_primary_key_counts _ _ Hcount), Hcount. cbn [Z.eqb].
  rewrite (Hcb _).
  set (w2 := after_deletions _ _) in *.
  assert (Hs : schema (this w2) = schema (this w)).
  { unfold w2. by rewrite after_deletions_schema. }
  assert (Hp : primary_of cn w2 = primary_of cn w) by (unfold primary_of; by rewrite Hs).
  assert (Hk : ∀ v, key_of cn v w2 = key_of cn v w) by (intros v; unfold key_of; by rewrite Hs).
  assert (Hshape2 : by_primary_key (primary_of cn w2) c = true) by (by rewrite Hp).
  rewrite (find_absent cn c w2 Hshape2); [reflexivity| |]; rewrite Hp, Hk.
  - rewrite Hfault. apply Hf.
  - apply Hgone. exact Hglob.
Qed.


(** ** [update] *)


Lemma update_when_find_is_empty cn c values vals w wf :
  heap w !! values = Some vals →
  primary_key_changes (primary_of cn w) c vals = inr false →
  calls_back (find (toLowerCase cn) c)
    (set_heap (<[values := obj_delete (primary_of cn w) vals]> (heap w)) w)
    (Ok (VArr [])) wf →
  calls_back (update cn c values) w (Ok (VArr [])) wf.
Proof.
  intros Hheap Hguard Hfind cb.
  rewrite (update_continues _ _ _ _ _ _ Hheap Hguard). by rewrite (Hfind _).
Qed.


(** X9: [update] on a key that holds nothing answers the empty sequence
    and writes nothing: the one command it sends is the GET of [find]. *)
Theorem update_absent_record cn c values vals w :
  let pk := primary_of cn w in
  let key := key_of cn (get_prop (where_value c) pk) w in
  heap w !! values = Some vals →
  primary_key_changes pk c vals = inr false →
  by_primary_key pk c = true →
  fault_of w (Redis.GET key) = None → store_of w !! key = None →
  ∃ w', calls_back (update cn c values) w (Ok (VArr [])) w'
    ∧ store_of w' = store_of w
    ∧ sent_of w' = (sent_of w ++ [Redis.GET key])%list.
Proof.
  intros pk key Hheap Hguard Hshape Hf Hnone.
  set (w1 := set_heap (<[values := obj_delete pk vals]> (heap w)) w).
  assert (Hshape1 : by_primary_key (primary_of (toLowerCase cn) w1) c = true).
  { by rewrite primary_of_lower. }
  pose proof (find_absent (toLowerCase cn) c w1 Hshape1) as Hfind.
  rewrite primary_of_lower, key_of_lower in Hfind.
  exists (after (Redis.GET key) w1). split; [|split].
  - eapply update_when_find_is_empty; [done..|]. exact (Hfind Hf Hnone).
  - exact (after_get_store _ w1).
  - exact (after_sent _ w1).
Qed.


(** X11: an [update] that finds its record and writes it back under the
    key it was read from is seen by a [find] on the same criteria, which
    answers the record that was written. *)
Theorem update_then_find cn c values vals w raw record payload written :
  let pk := primary_of cn w in
  let key := key_of cn (get_prop (where_value c) pk) w in
  let item := parse (schema (this w)) (toLowerCase cn) record in
  let merged := extend item (obj_delete pk vals) in
  heap w !! values = Some vals →
  primary_key_changes pk c vals = inr false →
  by_primary_key pk c = true →
  (∀ k, fault_of w k = None) →
  store_of w !! key = Some raw → raw ≠ "" → JSON.parse raw = Some record →
  JSON.stringify merged = Some payload →
  JSON.parse payload = Some written →
  key_of cn (obj_get pk item) w = key →
  ∃ w',
    update cn c values
      (fun r1 => find cn c (fun r2 => and_then (report r1) (report r2))) w
    = ([Ok (VArr [VObj merged]);
        Ok (VArr [VObj (parse (schema (this w)) (toLowerCase cn) written)])],
       Normal w')
    ∧ store_of w' = <[key := payload]> (store_of w).
Proof.
  intros pk key item merged Hheap Hguard Hshape Hf Hraw Hne Hparse Hs Hback Hkey.
  set (w1 := set_heap (<[values := obj_delete pk vals]> (heap w)) w).
  set (write := write_command key merged payload).
  set (w2 := after write (after (Redis.GET key) w1)).
  assert (Hupdate : calls_back (update cn c values) w (Ok (VArr [VObj merged])) w2).
  { pose proof (update_merges cn c values vals w raw record payload
                  Hheap Hguard Hshape (Hf _) Hraw Hne Hparse Hs (Hf _)) as Hm.
    cbv zeta in Hm. fold pk item merged in Hm. fold key in Hm.
    rewrite Hkey in Hm. exact Hm. }
  assert (Hstore : store_of w2 = <[key := payload]> (store_of w)).
  { unfold w2, write. rewrite after_write_store by (rewrite after_fault; apply Hf).
    by rewrite (after_get_store key w1). }
  assert (Hfault : fault_of w2 = fault_of w).
  { unfold w2. by rewrite !after_fault. }
  assert (Hshape2 : by_primary_key (primary_of cn w2) c = true) by exact Hshape.
  exists (after (Redis.GET key) w2). split.
  - rewrite (Hupdate _).
    rewrite (find_present cn c w2 payload written Hshape2); [reflexivity|..].
    + change (fault_of w2 (Redis.GET key) = None). rewrite Hfault. apply Hf.
    + change (store_of w2 !! key = Some payload). rewrite Hstore. apply lookup_insert_eq.
    + by apply (text_not_empty merged).
    + done.
  - by rewrite after_get_store.
Qed.

(** X12: [update] writes the merged record under the key made of the
    primary key the record found holds, not under the key it read.  When
    the two differ, the key the criteria address keeps its text: a [find]
    on the same criteria answers the record as it was, and the merged
    record lies under the other key. *)
Theorem update_writes_under_the_key_of_the_record
    cn c values vals w raw record payload :
  let pk := primary_of cn w in
  let key := key_of cn (get_prop (where_value c) pk) w in
  let item := parse (schema (this w)) (toLowerCase cn) record in
  let merged := extend item (obj_delete pk vals) in
  let other := key_of cn (obj_get pk item) w in
  heap w !! values = Some vals →
  primary_key_changes pk c vals = inr false →
  by_primary_key pk c = true →
  (∀ k, fault_of w k = None) →
  store_of w !! key = Some raw → raw ≠ "" → JSON.parse raw = Some record →
  JSON.stringify merged = Some payload →
  other ≠ key →
  ∃ w',
    update cn c values
      (fun r1 => find cn c (fun r2 => and_then (report r1) (report r2))) w
    = ([Ok (VArr [VObj merged]); Ok (VArr [VObj item])], Normal w')
    ∧ store_of w' !! key = Some raw
    ∧ store_of w' !! other = Some payload.
Proof.
  intros pk key item merged other Hheap Hguard Hshape Hf Hraw Hne Hparse Hs Hother.
  set (w1 := set_heap (<[values := obj_delete pk vals]> (heap w)) w).
  set (write := write_command other merged payload).
  set (w2 := after write (after (Redis.GET key) w1)).
  assert (Hupdate : calls_back (update cn c values) w (Ok (VArr [VObj merged])) w2).
  { exact (update_merges cn c values vals w raw record payload
             Hheap Hguard Hshape (Hf _) Hraw Hne Hparse Hs (Hf _)). }
  assert (Hstore : store_of w2 = <[other := payload]> (store_of w)).
  { unfold w2, write. rewrite after_write_store by (rewrite after_fault; apply Hf).
    by rewrite (after_get_store key w1). }
  assert (Hfault : fault_of w2 = fault_of w).
  { unfold w2. by rewrite !after_fault. }
  assert (Hshape2 : by_primary_key (primary_of cn w2) c = true) by exact Hshape.
  exists (after (Redis.GET key) w2). split; [|split].
  - rewrite (Hupdate _).
    rewrite (find_present cn c w2 raw record Hshape2); [reflexivity|..].
    + change (fault_of w2 (Redis.GET key) = None). rewrite Hfault. apply Hf.
    + change (store_of w2 !! key = Some raw). by rewrite Hstore, lookup_insert_ne.
    + done.
    + done.
  - by rewrite after_get_store, Hstore, lookup_insert_ne.
  - rewrite after_get_store, Hstore. apply lookup_insert_eq.
Qed.

Lemma obj_has_delete_absent k k' o : obj_has k o = false → obj_has k (obj_delete k' o) = false.
Proof.
  induction o as [|[k0 v] rest IH]; simpl; [done|]. intros Habs.
  apply orb_false_elim in Habs as [Hk Hrest].
  destruct (String.eqb k' k0); simpl; [by apply IH|]. rewrite Hk. by apply IH.
Qed.

(** X13: the record [update] writes back holds the TTL attribute of the
    record found, unless the values bring their own.  So the update of a
    record that expires is sent as a SETEX with the TTL the record was
    created with: its time to live starts again. *)
Theorem update_renews_ttl cn c values vals w raw record payload :
  let pk := primary_of cn w in
  let key := key_of cn (get_prop (where_value c) pk) w in
  let item := parse (schema (this w)) (toLowerCase cn) record in
  let merged := extend item (obj_delete pk vals) in
  let other := key_of cn (obj_get pk item) w in
  let ttl := ToNumber (obj_get "_ttl" item) in
  heap w !! values = Some vals →
  primary_key_changes pk c vals = inr false →
  by_primary_key pk c = true →
  fault_of w (Redis.GET key) = None →
  store_of w !! key = Some raw → raw ≠ "" → JSON.parse raw = Some record →
  JSON.stringify merged = Some payload →
  obj_has "_ttl" vals = false →
  ¬ no_expiry ttl →
  fault_of w (Redis.SETEX other ttl payload) = None →
  ∃ w', calls_back (update cn c values) w (Ok (VArr [VObj merged])) w'
    ∧ sent_of w' = (sent_of w ++ [Redis.GET key; Redis.SETEX other ttl payload])%list
    ∧ expiry_of w' !! other = Some ttl.
Proof.
  intros pk key item merged other ttl Hheap Hguard Hshape Hfg Hraw Hne Hparse Hs
    Hnone Hexp Hfw.
  set (w1 := set_heap (<[values := obj_delete pk vals]> (heap w)) w).
  assert (Hwrite : write_command other merged payload = Redis.SETEX other ttl payload).
  { unfold write_command, merged.
    rewrite (obj_get_extend_absent "_ttl" item) by (by apply obj_has_delete_absent).
    fold ttl. pose proof (plain_write_test ttl) as Ht.
    destruct (negb _ || _); [|done]. exfalso. apply Hexp. by apply Ht. }
  pose proof (update_merges cn c values vals w raw record payload
                Hheap Hguard Hshape Hfg Hraw Hne Hparse Hs) as Hm.
  cbv zeta in Hm. fold pk item merged in Hm. fold key other in Hm.
  rewrite Hwrite in Hm. specialize (Hm Hfw). fold w1 in Hm.
  eexists. split; [exact Hm|]. split.
  - rewrite after_sent, (after_sent _ w1). by rewrite <- app_assoc.
  - unfold expiry_of, after at 1.
    assert (Hfw' : Redis.fault (connection (this (after (Redis.GET key) w1)))
                     (Redis.SETEX other ttl payload) = None).
    { change (fault_of (after (Redis.GET key) w1) (Redis.SETEX other ttl payload) = None).
      by rewrite after_fault. }
    rewrite (send_served _ _ Hfw'). simpl. apply lookup_insert_eq.
Qed.

(** ** [create] *)

(** What [create] does, by what [JSON.stringify] and the connection
    answer. *)
Lemma create_runs cn data cb w :
  let written :=
    sanitize (recordKey (schema (this w)) (replaceSpaces (toLowerCase cn))
                (_primary (schema (this w)) (toLowerCase cn))
                (obj_get (primary_of cn w) data)) in
  create cn data cb w =
    match JSON.stringify data with
    | None => cb (Err JSON.circular) w
    | Some payload =>
        let write := write_command written data payload in
        match Redis.send write (connection (this w)) with
        | (inl e, _) => cb (Err e) (after write w)
        | (inr _, _) =>
            match Redis.send (Redis.GET written) (connection (this (after write w))) with
            | (inl e, _) => cb (Err e) (after (Redis.GET written) (after write w))
            | (inr values, _) =>
                match JSON.parse (ToString values) with
                | None =>
                    cb (Err JSON.unexpected) (after (Redis.GET written) (after write w))
                | Some values' =>
                    cb (Ok (VObj (parse (schema (this w))
                                    (replaceSpaces (toLowerCase cn)) values')))
                      (after (Redis.GET written) (after write w))
                end
            end
        end
    end.
Proof.
  intros written. unfold create. fold (primary_of cn w). fold written.
  destruct (JSON.stringify data) as [payload|] eqn:Hs.
  - rewrite (_set_calls_back _ _ _ w Hs). cbv zeta.
    destruct (Redis.send (write_command written data payload) _) as [[e|v] conn]; [done|].
    unfold connection_get. rewrite (connection_send_calls_back _ (after _ w) _).
    destruct (Redis.send (Redis.GET written) _) as [[e|values] conn']; [done|].
    by destruct (JSON.parse (ToString values)).
  - by rewrite (_set_circular _ _ w Hs).
Qed.

(** X14: how [create] fails.  Data that cannot be serialized ends it in
    that error with nothing sent.  A write the connection refuses ends it
    in that error, the store as it was and no read attempted.  When the
    write is served and the read that follows is refused, the caller gets
    the error of the read although the record is stored. *)
Theorem create_failures cn data w :
  let written :=
    sanitize (recordKey (schema (this w)) (replaceSpaces (toLowerCase cn))
                (_primary (schema (this w)) (toLowerCase cn))
                (obj_get (primary_of cn w) data)) in
  (JSON.stringify data = None → calls_back (create cn data) w (Err JSON.circular) w)
  ∧ (∀ payload message,
       let write := write_command written data payload in
       JSON.stringify data = Some payload →
       fault_of w write = Some message →
       ∃ w', calls_back (create cn data) w (Err (ReplyError message)) w'
         ∧ store_of w' = store_of w
         ∧ sent_of w' = (sent_of w ++ [write])%list)
  ∧ (∀ payload message,
       let write := write_command written data payload in
       JSON.stringify data = Some payload →
       fault_of w write = None →
       fault_of w (Redis.GET written) = Some message →
       ∃ w', calls_back (create cn data) w (Err (ReplyError message)) w'
         ∧ store_of w' !! written = Some payload
         ∧ sent_of w' = (sent_of w ++ [write; Redis.GET written])%list).
Proof.
  intros written. split; [|split].
  - intros Hs cb. rewrite create_runs. by rewrite Hs.
  - intros payload message write Hs Hf. exists (after write w).
    unfold fault_of in Hf. split; [|split].
    + intros cb. rewrite create_runs. rewrite Hs. cbv zeta. fold written. fold write.
      by rewrite (send_refused _ _ _ Hf).
    + unfold store_of, after. by rewrite (send_refused _ _ _ Hf).
    + apply after_sent.
  - intros payload message write Hs Hfw Hfg.
    exists (after (Redis.GET written) (after write w)).
    assert (Hfg' : Redis.fault (connection (this (after write w))) (Redis.GET written)
                   = Some message).
    { change (fault_of (after write w) (Redis.GET written) = Some message).
      by rewrite after_fault. }
    split; [|split].
    + intros cb. rewrite create_runs. rewrite Hs. cbv zeta. fold written. fold write.
      unfold fault_of in Hfw. rewrite (send_served _ _ Hfw).
      by rewrite (send_refused _ _ _ Hfg').
    + rewrite after_get_store. by apply write_stored.
    + rewrite !after_sent. by rewrite <- app_assoc.
Qed.

(** X15: [create] does not look for a record under the key before it
    writes.  Two records with the same primary key are both created
    without an error, each answered to its caller, and the store keeps
    the second under the one key. *)
Theorem create_last_write_wins cn first second payload1 payload2 record1 record2 w :
  let pk := primary_of cn w in
  let name := replaceSpaces (toLowerCase cn) in
  let written :=
    sanitize (recordKey (schema (this w)) name
                (_primary (schema (this w)) (toLowerCase cn)) (obj_get pk first)) in
  (∀ k, fault_of w k = None) →
  JSON.stringify first = Some payload1 → JSON.parse payload1 = Some record1 →
  JSON.stringify second = Some payload2 → JSON.parse payload2 = Some record2 →
  obj_get pk second = obj_get pk first →
  ∃ w',
    create cn first
      (fun r1 => create cn second (fun r2 => and_then (report r1) (report r2))) w
    = ([Ok (VObj (parse (schema (this w)) name record1));
        Ok (VObj (parse (schema (this w)) name record2))], Normal w')
    ∧ store_of w' !! written = Some payload2
    ∧ ∀ k, k ≠ written → store_of w' !! k = store_of w !! k.
Proof.
  intros pk name written Hf Hs1 Hp1 Hs2 Hp2 Hsame.
  destruct (create_stores cn first payload1 record1 w Hf Hs1 Hp1)
    as (Hcreate1 & Hstore1 & Hfault1).
  fold pk name written in Hcreate1, Hstore1, Hfault1.
  set (w1 := after (Redis.GET written) (after (write_command written first payload1) w)) in *.
  assert (Hf1 : ∀ k, fault_of w1 k = None) by (intros k; rewrite Hfault1; apply Hf).
  destruct (create_stores cn second payload2 record2 w1 Hf1 Hs2 Hp2)
    as (Hcreate2 & Hstore2 & _).
  change (primary_of cn w1) with pk in Hcreate2, Hstore2.
  change (schema (this w1)) with (schema (this w)) in Hcreate2, Hstore2.
  rewrite Hsame in Hcreate2, Hstore2. fold name written in Hcreate2, Hstore2.
  eexists. split; [|split].
  - rewrite (Hcreate1 _), (Hcreate2 _). reflexivity.
  - rewrite Hstore2. apply lookup_insert_eq.
  - intros k Hk. by rewrite Hstore2, Hstore1, !lookup_insert_ne.
Qed.



(** ** One call of the callback *)


(** ** What [find] and [destroy] take for no record *)

(** X17: a key that holds the empty text is taken for a key that holds
    nothing, as [!record] is true of it: [find] answers the empty
    sequence, and [destroy] answers the empty sequence and leaves the key
    where it is, the GET being the one command it sends. *)
Theorem empty_text_counts_as_absent cn c w :
  let key := key_of cn (get_prop (where_value c) (primary_of cn w)) w in
  by_primary_key (primary_of cn w) c = true →
  fault_of w (Redis.GET key) = None →
  store_of w !! key = Some "" →
  calls_back (find cn c) w (Ok (VArr [])) (after (Redis.GET key) w)
  ∧ calls_back (destroy cn c) w (Ok (VArr [])) (after (Redis.GET key) w)
  ∧ store_of (after (Redis.GET key) w) !! key = Some ""
  ∧ sent_of (after (Redis.GET key) w) = (sent_of w ++ [Redis.GET key])%list.
Proof.
  intros key Hshape Hf Hempty. split; [|split; [|split]].
  - intros cb. rewrite (find_fetches cn c w Hshape). fold key.
    by rewrite (get_served _ _ Hf), Hempty.
  - intros cb. unfold destroy. fold (primary_of cn w). rewrite Hshape.
    fold (key_of cn (get_prop (where_value c) (primary_of cn w)) w). fold key.
    unfold connection_get. rewrite (connection_send_calls_back _ w _).
    by rewrite (get_served _ _ Hf), Hempty.
  - by rewrite after_get_store.
  - apply after_sent.
Qed.

(** X18: how [destroy] by primary key fails.  A refused GET ends it in
    that error with no deletion sent.  A refused DEL ends it in that
    error, and the record stays under its key. *)
Theorem destroy_failures cn c w :
  let key := key_of cn (get_prop (where_value c) (primary_of cn w)) w in
  by_primary_key (primary_of cn w) c = true →
  (∀ message, fault_of w (Redis.GET key) = Some message →
     calls_back (destroy cn c) w (Err (ReplyError message)) (after (Redis.GET key) w)
     ∧ store_of (after (Redis.GET key) w) = store_of w
     ∧ sent_of (after (Redis.GET key) w) = (sent_of w ++ [Redis.GET key])%list)
  ∧ (∀ raw message,
       fault_of w (Redis.GET key) = None → store_of w !! key = Some raw → raw ≠ "" →
       fault_of w (Redis.DEL key) = Some message →
       calls_back (destroy cn c) w (Err (ReplyError message))
         (after (Redis.DEL key) (after (Redis.GET key) w))
       ∧ store_of (after (Redis.DEL key) (after (Redis.GET key) w)) !! key = Some raw).
Proof.
  intros key Hshape. split.
  - intros message Hf. split; [|split].
    + intros cb. unfold destroy. fold (primary_of cn w). rewrite Hshape.
      fold (key_of cn (get_prop (where_value c) (primary_of cn w)) w). fold key.
      unfold connection_get. rewrite (connection_send_calls_back _ w _).
      unfold fault_of in Hf. by rewrite (send_refused _ _ _ Hf).
    + by rewrite after_get_store.
    + apply after_sent.
  - intros raw message Hfg Hraw Hne Hfd.
    assert (Hfd' : Redis.fault (connection (this (after (Redis.GET key) w))) (Redis.DEL key)
                   = Some message).
    { change (fault_of (after (Redis.GET key) w) (Redis.DEL key) = Some message).
      by rewrite after_fault. }
    split.
    + intros cb. unfold destroy. fold (primary_of cn w). rewrite Hshape.
      fold (key_of cn (get_prop (where_value c) (primary_of cn w)) w). fold key.
      unfold connection_get. rewrite (connection_send_calls_back _ w _).
      rewrite (get_served _ _ Hfg), Hraw.
      change (from_option VStr VNull (Some raw)) with (VStr raw).
      rewrite (truthy_string _ Hne). cbn [negb].
      unfold connection_del. rewrite (connection_send_calls_back _ (after _ w) _).
      by rewrite (send_refused _ _ _ Hfd').
    + unfold store_of at 1. unfold after at 1. rewrite (send_refused _ _ _ Hfd').
      change (store_of (after (Redis.GET key) w) !! key = Some raw).
      by rewrite after_get_store.
Qed.

End Coverage.


(* ===================================================================== *)
(** * The properties on the session *)
(* ===================================================================== *)

Import Session.

(** The scenario of the specification: Ann is created, found, renamed,
    destroyed ([destroy] answers the text that was stored) and found no
    more. *)
Lemma scenario :
  fst (create "user" ann (fun r1 =>
       find "user" (by_id (VStr "u1")) (fun r2 =>
       update "user" (by_id (VStr "u1")) 0 (fun r3 =>
       destroy "user" (by_id (VStr "u1")) (fun r4 =>
       find "user" (by_id (VStr "u1")) (fun r5 =>
         and_then (report r1) (and_then (report r2) (and_then (report r3)
           (and_then (report r4) (report r5)))))))))
         (started [("name", VStr "Annie")]))
  = [Ok (VObj ann); Ok (VArr [VObj ann]); Ok (VArr [VObj renaming]);
     Ok (VStr (text_of renaming)); Ok (VArr [])].
Proof. vm_compute. reflexivity. Qed.



(** An update of Ann's record that changes the primary key is refused;
    one that repeats it is merged, and the record keeps its key. *)
Lemma update_forbids_primary_key_change_witness :
  (heap rekeying_world !! 0%nat = Some rekeying
   ∧ ∃ w', calls_back (update "user" (by_id (VStr "u1")) 0) rekeying_world
             (Err PrimaryKeyUpdate) w')
  ∧ (let w := renaming_world in
     let c := by_id (VStr "u1") in
     let pk := primary_of "user" w in
     let key := key_of "user" (get_prop (where_value c) pk) w in
     let item := parse (schema (this w)) (toLowerCase "user") (VObj ann) in
     let merged := extend item (obj_delete pk renaming) in
     let write := write_command (key_of "user" (obj_get pk item) w) merged (text_of merged) in
     heap w !! 0%nat = Some renaming
     ∧ primary_key_changes pk c renaming = inr false
     ∧ by_primary_key pk c = true
     ∧ fault_of w (Redis.GET key) = None
     ∧ store_of w !! key = Some (text_of ann)
     ∧ text_of ann ≠ ""
     ∧ JSON.parse (text_of ann) = Some (VObj ann)
     ∧ JSON.stringify merged = Some (text_of merged)
     ∧ fault_of w write = None
     ∧ merged = [("id", VStr "u1"); ("name", VStr "Annie")]
     ∧ ∃ w', calls_back (update "user" c 0) w (Ok (VArr [VObj merged])) w'
             ∧ obj_get pk merged = obj_get pk item
             ∧ store_of w' !! key = Some (text_of merged)).
Proof.
  split.
  - assert (H1 : heap rekeying_world !! 0%nat = Some rekeying) by (vm_compute; reflexivity).
    split; [exact H1|].
    apply (proj1 (update_forbids_primary_key_change "user" (by_id (VStr "u1")) 0
                    rekeying rekeying_world H1)).
    split; [vm_compute; reflexivity|].
    eexists. split; [reflexivity | vm_compute; reflexivity].
  - intros w c pk key item merged write.
    assert (H1 : heap w !! 0%nat = Some renaming) by (vm_compute; reflexivity).
    assert (H2 : primary_key_changes pk c renaming = inr false) by (vm_compute; reflexivity).
    assert (H3 : by_primary_key pk c = true) by (vm_compute; reflexivity).
    assert (H4 : fault_of w (Redis.GET key) = None) by (vm_compute; reflexivity).
    assert (H5 : store_of w !! key = Some (text_of ann)) by (vm_compute; reflexivity).
    assert (H6 : text_of ann ≠ "") by (vm_compute; discriminate).
    assert (H7 : JSON.parse (text_of ann) = Some (VObj ann)) by (vm_compute; reflexivity).
    assert (H8 : JSON.stringify merged = Some (text_of merged)) by (vm_compute; reflexivity).
    assert (H9 : fault_of w write = None) by (vm_compute; reflexivity).
    repeat (split; [assumption|]).
    split; [vm_compute; reflexivity|].
    destruct (proj2 (proj2 (update_forbids_primary_key_change "user" c 0 renaming w H1))
                (text_of ann) (VObj ann) (text_of merged) H2 H3 H4 H5 H6 H7 H8 H9)
      as (Hcb & Hpk & Hstore).
    eexists. split; [exact Hcb|]. split; [exact Hpk|].
    exact Hstore.
Defined.

(** [user] defined as [User] is described as null. *)
Lemma define_then_describe_other_spelling_witness :
  toLowerCase "User" = toLowerCase "user"
  ∧ "User" ≠ "user"
  ∧ ("user" ∉ definedCollections (this fresh))
  ∧ retrieve (toLowerCase "user")
      (registerCollection (toLowerCase "user") user_definition (schema (this fresh)))
    = Some user_definition
  ∧ Object_keys user_definition ≠ []
  ∧ (∃ w', define "User" user_definition (fun _ => describe "user" report) fresh
           = ([Ok VNull], Normal w'))
  ∧ (∃ w', define "user" user_definition (fun _ => describe "user" report) fresh
           = ([Ok (VObj user_definition)], Normal w')).
Proof.
  assert (H1 : toLowerCase "User" = toLowerCase "user") by (vm_compute; reflexivity).
  assert (H2 : "User" ≠ "user") by discriminate.
  assert (H3 : "user" ∉ definedCollections (this fresh)) by apply not_elem_of_empty.
  assert (H4 : retrieve (toLowerCase "user")
                 (registerCollection (toLowerCase "user") user_definition
                    (schema (this fresh))) = Some user_definition)
    by (vm_compute; reflexivity).
  assert (H5 : Object_keys user_definition ≠ []) by discriminate.
  repeat (split; [assumption|]).
  exact (define_then_describe_other_spelling "User" "user" user_definition user_definition
           fresh H1 H2 H3 H4 H5).
Defined.

(** An update that [find] rejects has already taken the primary key out
    of the values. *)
Lemma update_mutates_values_witness :
  let w := renaming_world in
  let pk := primary_of "user" w in
  heap w !! 0%nat = Some renaming
  ∧ primary_key_changes pk by_id_and_name renaming = inr false
  ∧ by_primary_key pk by_id_and_name = false
  ∧ ∃ w', calls_back (update "user" by_id_and_name 0) w (Err (Error find_message)) w'
          ∧ heap w' !! 0%nat = Some [("name", VStr "Annie")].
Proof.
  intros w pk.
  assert (H1 : heap w !! 0%nat = Some renaming) by (vm_compute; reflexivity).
  assert (H2 : primary_key_changes pk by_id_and_name renaming = inr false)
    by (vm_compute; reflexivity).
  assert (H3 : by_primary_key pk by_id_and_name = false) by (vm_compute; reflexivity).
  repeat (split; [assumption|]).
  destruct (proj1 (update_mutates_values "user" by_id_and_name 0 renaming w H1) H2)
    as (r & w' & Hcb & Hheap & _ & Hrejected).
  exists w'. rewrite <- (Hrejected H3). split; [exact Hcb|].
  etransitivity; [exact Hheap | vm_compute; reflexivity].
Defined.

(** An update without a where clause throws; [find] calls back. *)
Lemma update_throws_without_where_witness :
  let w := renaming_world in
  let c := {| where_ := None |} in
  heap w !! 0%nat = Some renaming
  ∧ present (obj_get (primary_of "user" w) renaming) = true
  ∧ where_ c = None
  ∧ update "user" c 0 report w
    = ([], Throw (TypeError "Cannot read property of undefined") w)
  ∧ find "user" c report w = ([Err (Error find_message)], Normal w).
Proof.
  intros w c.
  assert (H1 : heap w !! 0%nat = Some renaming) by (vm_compute; reflexivity).
  assert (H2 : present (obj_get (primary_of "user" w) renaming) = true)
    by (vm_compute; reflexivity).
  assert (H3 : where_ c = None) by reflexivity.
  repeat (split; [assumption|]).
  destruct (update_throws_without_where "user" c 0 renaming w H1 H2 H3) as (Hthrow & Hfind & _).
  split; [apply Hthrow | apply Hfind].
Defined.





(** ** More of the session *)

(** Ann is created, found, renamed, destroyed, and the collection is
    dropped: [describe] still answers the definition of [user]. *)
Lemma record_calls_keep_registry_witness :
  let calls :=
    [Create "user" ann; Find "user" (by_id (VStr "u1"));
     Update "user" (by_id (VStr "u1")) 0; Destroy "user" (by_id (VStr "u1"));
     Drop "user" (VArr []); Describe "user"] in
  let w := renaming_start in
  forallb (fun k => negb (registers k)) calls = true
  ∧ fst (describe "user" report (world_of (snd (lifetime calls w))))
    = [Ok (VObj user_definition)].
Proof.
  intros calls w.
  assert (H1 : forallb (fun k => negb (registers k)) calls = true) by reflexivity.
  split; [exact H1|].
  rewrite (proj2 (proj2 (proj2 (record_calls_keep_registry calls w H1))) "user").
  vm_compute. reflexivity.
Defined.

(** Behind a read-only server [drop] still sends the deletion of Ann's
    record, and the record stays. *)
Lemma drop_attempts_every_deletion_witness :
  let w := read_only_world in
  let pattern := key_of "user" (VStr "") w ++ "*" in
  fault_of w (Redis.KEYS pattern) = None
  ∧ ∃ w', snd (drop "user" (VArr []) report w) = Normal w'
      ∧ sent_of w' = (sent_of w ++ [Redis.KEYS pattern; Redis.DEL "waterline:user:id:u1"])%list
      ∧ store_of w' !! "waterline:user:id:u1" = Some (text_of ann).
Proof.
  intros w pattern.
  assert (H1 : fault_of w (Redis.KEYS pattern) = None) by (vm_compute; reflexivity).
  split; [exact H1|].
  destruct (drop_attempts_every_deletion "user" (VArr []) w H1)
    as (w' & Hdrop & Hsent & _ & Hkept & _).
  exists w'. split; [exact Hdrop|]. split.
  - rewrite Hsent. vm_compute. reflexivity.
  - rewrite (Hkept "waterline:user:id:u1").
    + vm_compute. reflexivity.
    + vm_compute. by left.
    + vm_compute. discriminate.
Defined.

(** With Ann's record stored, [drop] of [user] leaves no key of the
    collection. *)
Lemma drop_clears_collection_witness :
  let w := stocked_world in
  let pattern := key_of "user" (VStr "") w ++ "*" in
  (∀ c, fault_of w c = None)
  ∧ store_of w !! "waterline:user:id:u1" = Some (text_of ann)
  ∧ ∃ w', drop "user" (VArr []) report w = ([Ok VUndefined], Normal w')
      ∧ store_of w' !! "waterline:user:id:u1" = None
      ∧ Redis.matching pattern (store_of w') = [].
Proof.
  intros w pattern.
  assert (H1 : ∀ c, fault_of w c = None) by (intros c; reflexivity).
  split; [exact H1|]. split; [vm_compute; reflexivity|].
  destruct (drop_clears_collection "user" (VArr []) w H1)
    as (w' & Hdrop & Hgone & _ & Hnone).
  exists w'. split; [exact Hdrop|]. split; [|exact Hnone].
  apply Hgone. vm_compute. reflexivity.
Defined.

(** Behind a server that refuses to list the keys, [drop] deletes
    nothing and calls back twice. *)
Lemma drop_scan_refused_witness :
  let w := no_scan_world in
  let pattern := key_of "user" (VStr "") w ++ "*" in
  fault_of w (Redis.KEYS pattern) = Some "NOPERM"
  ∧ ∃ w', drop "user" (VArr []) report w
          = ([Err (ReplyError "NOPERM"); Ok VUndefined], Normal w')
      ∧ store_of w' = store_of w
      ∧ sent_of w' = (sent_of w ++ [Redis.KEYS pattern])%list.
Proof.
  intros w pattern.
  assert (H1 : fault_of w (Redis.KEYS pattern) = Some "NOPERM") by (vm_compute; reflexivity).
  split; [exact H1|].
  exact (drop_scan_refused "user" (VArr []) w "NOPERM" H1).
Defined.

(** Ann's record is destroyed and found no more. *)
Lemma destroy_then_find_witness :
  let w := stocked_world in
  let c := by_id (VStr "u1") in
  let key := key_of "user" (get_prop (where_value c) (primary_of "user" w)) w in
  by_primary_key (primary_of "user" w) c = true
  ∧ fault_of w (Redis.GET key) = None
  ∧ fault_of w (Redis.DEL key) = None
  ∧ store_of w !! key = Some (text_of ann)
  ∧ text_of ann ≠ ""
  ∧ ∃ w',
      destroy "user" c (fun r1 => find "user" c (fun r2 => and_then (report r1) (report r2))) w
      = ([Ok (VStr (text_of ann)); Ok (VArr [])], Normal w').
Proof.
  intros w c key.
  assert (H1 : by_primary_key (primary_of "user" w) c = true) by (vm_compute; reflexivity).
  assert (H2 : fault_of w (Redis.GET key) = None) by (vm_compute; reflexivity).
  assert (H3 : fault_of w (Redis.DEL key) = None) by (vm_compute; reflexivity).
  assert (H4 : store_of w !! key = Some (text_of ann)) by (vm_compute; reflexivity).
  assert (H5 : text_of ann ≠ "") by (vm_compute; discriminate).
  repeat (split; [assumption|]).
  exact (destroy_then_find "user" c w (text_of ann) H1 H2 H3 H4 H5).
Defined.

(** All the records of [user] are destroyed, and Ann's is found no
    more. *)
Lemma destroy_all_then_find_witness :
  let w := stocked_world in
  let c_all := {| where_ := Some [] |} in
  let c := by_id (VStr "u1") in
  let pattern := key_of "user" (VStr "") w ++ "*" in
  let key := key_of "user" (get_prop (where_value c) (primary_of "user" w)) w in
  count (where_value c_all) = 0
  ∧ (∀ k, fault_of w k = None)
  ∧ by_primary_key (primary_of "user" w) c = true
  ∧ Redis.glob pattern key = true
  ∧ store_of w !! key = Some (text_of ann)
  ∧ ∃ w',
      destroy "user" c_all
        (fun r1 => find "user" c (fun r2 => and_then (report r1) (report r2))) w
      = ([Ok VUndefined; Ok (VArr [])], Normal w').
Proof.
  intros w c_all c pattern key.
  assert (H1 : count (where_value c_all) = 0) by (vm_compute; reflexivity).
  assert (H2 : ∀ k, fault_of w k = None) by (intros k; reflexivity).
  assert (H3 : by_primary_key (primary_of "user" w) c = true) by (vm_compute; reflexivity).
  assert (H4 : Redis.glob pattern key = true) by (vm_compute; reflexivity).
  assert (H5 : store_of w !! key = Some (text_of ann)) by (vm_compute; reflexivity).
  repeat (split; [assumption|]).
  exact (destroy_all_then_find "user" c_all c w H1 H2 H3 H4).
Defined.


(** An update of Ann's record before it was created answers the empty
    sequence and stores nothing. *)
Lemma update_absent_record_witness :
  let w := renaming_start in
  let c := by_id (VStr "u1") in
  let pk := primary_of "user" w in
  let key := key_of "user" (get_prop (where_value c) pk) w in
  heap w !! 0%nat = Some renaming
  ∧ primary_key_changes pk c renaming = inr false
  ∧ by_primary_key pk c = true
  ∧ fault_of w (Redis.GET key) = None
  ∧ store_of w !! key = None
  ∧ ∃ w', calls_back (update "user" c 0) w (Ok (VArr [])) w'
      ∧ store_of w' = store_of w
      ∧ sent_of w' = (sent_of w ++ [Redis.GET key])%list.
Proof.
  intros w c pk key.
  assert (H1 : heap w !! 0%nat = Some renaming) by (vm_compute; reflexivity).
  assert (H2 : primary_key_changes pk c renaming = inr false) by (vm_compute; reflexivity).
  assert (H3 : by_primary_key pk c = true) by (vm_compute; reflexivity).
  assert (H4 : fault_of w (Redis.GET key) = None) by (vm_compute; reflexivity).
  assert (H5 : store_of w !! key = None) by (vm_compute; reflexivity).
  repeat (split; [assumption|]).
  exact (update_absent_record "user" c 0 renaming w H1 H2 H3 H4 H5).
Defined.


(** Ann is renamed, and found under her new name. *)
Lemma update_then_find_witness :
  let w := renaming_world in
  let c := by_id (VStr "u1") in
  let pk := primary_of "user" w in
  let key := key_of "user" (get_prop (where_value c) pk) w in
  let item := parse (schema (this w)) (toLowerCase "user") (VObj ann) in
  let merged := extend item (obj_delete pk renaming) in
  heap w !! 0%nat = Some renaming
  ∧ primary_key_changes pk c renaming = inr false
  ∧ by_primary_key pk c = true
  ∧ (∀ k, fault_of w k = None)
  ∧ store_of w !! key = Some (text_of ann)
  ∧ text_of ann ≠ ""
  ∧ JSON.parse (text_of ann) = Some (VObj ann)
  ∧ JSON.stringify merged = Some (text_of merged)
  ∧ JSON.parse (text_of merged) = Some (VObj renaming)
  ∧ key_of "user" (obj_get pk item) w = key
  ∧ ∃ w',
      update "user" c 0
        (fun r1 => find "user" c (fun r2 => and_then (report r1) (report r2))) w
      = ([Ok (VArr [VObj merged]);
          Ok (VArr [VObj (parse (schema (this w)) (toLowerCase "user") (VObj renaming))])],
         Normal w')
      ∧ store_of w' = <[key := text_of merged]> (store_of w).
Proof.
  intros w c pk key item merged.
  assert (H1 : heap w !! 0%nat = Some renaming) by (vm_compute; reflexivity).
  assert (H2 : primary_key_changes pk c renaming = inr false) by (vm_compute; reflexivity).
  assert (H3 : by_primary_key pk c = true) by (vm_compute; reflexivity).
  assert (H4 : ∀ k, fault_of w k = None) by (intros k; reflexivity).
  assert (H5 : store_of w !! key = Some (text_of ann)) by (vm_compute; reflexivity).
  assert (H6 : text_of ann ≠ "") by (vm_compute; discriminate).
  assert (H7 : JSON.parse (text_of ann) = Some (VObj ann)) by (vm_compute; reflexivity).
  assert (H8 : JSON.stringify merged = Some (text_of merged)) by (vm_compute; reflexivity).
  assert (H9 : JSON.parse (text_of merged) = Some (VObj renaming)) by (vm_compute; reflexivity).
  assert (H10 : key_of "user" (obj_get pk item) w = key) by (vm_compute; reflexivity).
  repeat (split; [assumption|]).
  exact (update_then_find "user" c 0 renaming w (text_of ann) (VObj ann) (text_of merged)
           (VObj renaming) H1 H2 H3 H4 H5 H6 H7 H8 H9 H10).
Defined.

(** The record created with a space in its primary key lies under the
    key without the space.  Its update, by that key, writes the merged
    record under the key with the space: the [find] that follows answers
    the record as it was. *)
Lemma update_writes_under_the_key_of_the_record_witness :
  let w := spaced_world in
  let values := [("name", VStr "Bob")] in
  let c := by_id (VStr "ab") in
  let pk := primary_of "user" w in
  let key := key_of "user" (get_prop (where_value c) pk) w in
  let item := parse (schema (this w)) (toLowerCase "user") (VObj spaced) in
  let merged := extend item (obj_delete pk values) in
  let other := key_of "user" (obj_get pk item) w in
  heap w !! 0%nat = Some values
  ∧ primary_key_changes pk c values = inr false
  ∧ by_primary_key pk c = true
  ∧ (∀ k, fault_of w k = None)
  ∧ store_of w !! key = Some (text_of spaced)
  ∧ text_of spaced ≠ ""
  ∧ JSON.parse (text_of spaced) = Some (VObj spaced)
  ∧ JSON.stringify merged = Some (text_of merged)
  ∧ other ≠ key
  ∧ ∃ w',
      update "user" c 0
        (fun r1 => find "user" c (fun r2 => and_then (report r1) (report r2))) w
      = ([Ok (VArr [VObj merged]); Ok (VArr [VObj item])], Normal w')
      ∧ store_of w' !! key = Some (text_of spaced)
      ∧ store_of w' !! other = Some (text_of merged).
Proof.
  intros w values c pk key item merged other.
  assert (H1 : heap w !! 0%nat = Some values) by (vm_compute; reflexivity).
  assert (H2 : primary_key_changes pk c values = inr false) by (vm_compute; reflexivity).
  assert (H3 : by_primary_key pk c = true) by (vm_compute; reflexivity).
  assert (H4 : ∀ k, fault_of w k = None) by (intros k; reflexivity).
  assert (H5 : store_of w !! key = Some (text_of spaced)) by (vm_compute; reflexivity).
  assert (H6 : text_of spaced ≠ "") by (vm_compute; discriminate).
  assert (H7 : JSON.parse (text_of spaced) = Some (VObj spaced)) by (vm_compute; reflexivity).
  assert (H8 : JSON.stringify merged = Some (text_of merged)) by (vm_compute; reflexivity).
  assert (H9 : other ≠ key) by (vm_compute; discriminate).
  repeat (split; [assumption|]).
  exact (update_writes_under_the_key_of_the_record "user" c 0 values w (text_of spaced)
           (VObj spaced) (text_of merged) H1 H2 H3 H4 H5 H6 H7 H8 H9).
Defined.

(** The record that expires after a minute is renamed: the write is a
    SETEX of a minute. *)
Lemma update_renews_ttl_witness :
  let w := expiring_world in
  let values := [("name", VStr "Cyd")] in
  let c := by_id (VStr "u3") in
  let pk := primary_of "user" w in
  let key := key_of "user" (get_prop (where_value c) pk) w in
  let item := parse (schema (this w)) (toLowerCase "user") (VObj expiring) in
  let merged := extend item (obj_delete pk values) in
  let other := key_of "user" (obj_get pk item) w in
  let ttl := ToNumber (obj_get "_ttl" item) in
  heap w !! 0%nat = Some values
  ∧ primary_key_changes pk c values = inr false
  ∧ by_primary_key pk c = true
  ∧ fault_of w (Redis.GET key) = None
  ∧ store_of w !! key = Some (text_of expiring)
  ∧ text_of expiring ≠ ""
  ∧ JSON.parse (text_of expiring) = Some (VObj expiring)
  ∧ JSON.stringify merged = Some (text_of merged)
  ∧ obj_has "_ttl" values = false
  ∧ ¬ no_expiry ttl
  ∧ fault_of w (Redis.SETEX other ttl (text_of merged)) = None
  ∧ ttl = Num 60
  ∧ ∃ w', calls_back (update "user" c 0) w (Ok (VArr [VObj merged])) w'
      ∧ sent_of w'
        = (sent_of w ++ [Redis.GET key; Redis.SETEX other ttl (text_of merged)])%list
      ∧ expiry_of w' !! other = Some ttl.
Proof.
  intros w values c pk key item merged other ttl.
  assert (H1 : heap w !! 0%nat = Some values) by (vm_compute; reflexivity).
  assert (H2 : primary_key_changes pk c values = inr false) by (vm_compute; reflexivity).
  assert (H3 : by_primary_key pk c = true) by (vm_compute; reflexivity).
  assert (H4 : fault_of w (Redis.GET key) = None) by (vm_compute; reflexivity).
  assert (H5 : store_of w !! key = Some (text_of expiring)) by (vm_compute; reflexivity).
  assert (H6 : text_of expiring ≠ "") by (vm_compute; discriminate).
  assert (H7 : JSON.parse (text_of expiring) = Some (VObj expiring))
    by (vm_compute; reflexivity).
  assert (H8 : JSON.stringify merged = Some (text_of merged)) by (vm_compute; reflexivity).
  assert (H9 : obj_has "_ttl" values = false) by (vm_compute; reflexivity).
  assert (H10 : ¬ no_expiry ttl) by (vm_compute; intros [H|[H|H]]; discriminate).
  assert (H11 : fault_of w (Redis.SETEX other ttl (text_of merged)) = None)
    by (vm_compute; reflexivity).
  repeat (split; [assumption|]).
  split; [vm_compute; reflexivity|].
  exact (update_renews_ttl "user" c 0 values w (text_of expiring) (VObj expiring)
           (text_of merged) H1 H2 H3 H4 H5 H6 H7 H8 H9 H10 H11).
Defined.

(** How the creation of a record fails: one that holds itself cannot be
    serialized; behind a server that refuses to write nothing is stored;
    behind one that refuses to read the record is stored and the caller
    gets the error. *)
Lemma create_failures_witness :
  (let looping := [("id", VStr "u1"); ("self", VCycle)] in
   JSON.stringify looping = None
   ∧ calls_back (create "user" looping) defined_world (Err JSON.circular) defined_world)
  ∧ (let w := no_write_world in
     let write := Redis.SET "waterline:user:id:u1" (text_of anna) in
     JSON.stringify anna = Some (text_of anna)
     ∧ fault_of w write = Some "NOPERM"
     ∧ ∃ w', calls_back (create "user" anna) w (Err (ReplyError "NOPERM")) w'
         ∧ store_of w' = store_of w
         ∧ sent_of w' = (sent_of w ++ [write])%list)
  ∧ (let w := no_read_world in
     let write := Redis.SET "waterline:user:id:u1" (text_of anna) in
     JSON.stringify anna = Some (text_of anna)
     ∧ fault_of w write = None
     ∧ fault_of w (Redis.GET "waterline:user:id:u1") = Some "NOPERM"
     ∧ ∃ w', calls_back (create "user" anna) w (Err (ReplyError "NOPERM")) w'
         ∧ store_of w' !! "waterline:user:id:u1" = Some (text_of anna)
         ∧ sent_of w' = (sent_of w ++ [write; Redis.GET "waterline:user:id:u1"])%list).
Proof.
  split; [|split].
  - intros looping.
    assert (H1 : JSON.stringify looping = None) by (vm_compute; reflexivity).
    split; [exact H1|].
    exact (proj1 (create_failures "user" looping defined_world) H1).
  - intros w write.
    assert (H1 : JSON.stringify anna = Some (text_of anna)) by (vm_compute; reflexivity).
    assert (H2 : fault_of w write = Some "NOPERM") by (vm_compute; reflexivity).
    repeat (split; [assumption|]).
    exact (proj1 (proj2 (create_failures "user" anna w)) (text_of anna) "NOPERM" H1 H2).
  - intros w write.
    assert (H1 : JSON.stringify anna = Some (text_of anna)) by (vm_compute; reflexivity).
    assert (H2 : fault_of w write = None) by (vm_compute; reflexivity).
    assert (H3 : fault_of w (Redis.GET "waterline:user:id:u1") = Some "NOPERM")
      by (vm_compute; reflexivity).
    repeat (split; [assumption|]).
    exact (proj2 (proj2 (create_failures "user" anna w)) (text_of anna) "NOPERM" H1 H2 H3).
Defined.

(** Ann and then Anna are created with the same primary key: both are
    answered, and the store holds Anna. *)
Lemma create_last_write_wins_witness :
  let w := defined_world in
  let pk := primary_of "user" w in
  (∀ k, fault_of w k = None)
  ∧ JSON.stringify ann = Some (text_of ann)
  ∧ JSON.parse (text_of ann) = Some (VObj ann)
  ∧ JSON.stringify anna = Some (text_of anna)
  ∧ JSON.parse (text_of anna) = Some (VObj anna)
  ∧ obj_get pk anna = obj_get pk ann
  ∧ ∃ w',
      create "user" ann
        (fun r1 => create "user" anna (fun r2 => and_then (report r1) (report r2))) w
      = ([Ok (VObj ann); Ok (VObj anna)], Normal w')
      ∧ store_of w' !! "waterline:user:id:u1" = Some (text_of anna).
Proof.
  intros w pk.
  assert (H1 : ∀ k, fault_of w k = None) by (intros k; reflexivity).
  assert (H2 : JSON.stringify ann = Some (text_of ann)) by (vm_compute; reflexivity).
  assert (H3 : JSON.parse (text_of ann) = Some (VObj ann)) by (vm_compute; reflexivity).
  assert (H4 : JSON.stringify anna = Some (text_of anna)) by (vm_compute; reflexivity).
  assert (H5 : JSON.parse (text_of anna) = Some (VObj anna)) by (vm_compute; reflexivity).
  assert (H6 : obj_get pk anna = obj_get pk ann) by (vm_compute; reflexivity).
  repeat (split; [assumption|]).
  destruct (create_last_write_wins "user" ann anna (text_of ann) (text_of anna)
              (VObj ann) (VObj anna) w H1 H2 H3 H4 H5 H6) as (w' & Hrun & Hstore & _).
  exists w'. split; [exact Hrun | exact Hstore].
Defined.

(** Ann's key holds the empty text: [find] and [destroy] answer the
    empty sequence and the key stays. *)
Lemma empty_text_counts_as_absent_witness :
  let w := blank_world in
  let c := by_id (VStr "u1") in
  let key := key_of "user" (get_prop (where_value c) (primary_of "user" w)) w in
  by_primary_key (primary_of "user" w) c = true
  ∧ fault_of w (Redis.GET key) = None
  ∧ store_of w !! key = Some ""
  ∧ calls_back (find "user" c) w (Ok (VArr [])) (after (Redis.GET key) w)
  ∧ calls_back (destroy "user" c) w (Ok (VArr [])) (after (Redis.GET key) w)
  ∧ store_of (after (Redis.GET key) w) !! key = Some ""
  ∧ sent_of (after (Redis.GET key) w) = (sent_of w ++ [Redis.GET key])%list.
Proof.
  intros w c key.
  assert (H1 : by_primary_key (primary_of "user" w) c = true) by (vm_compute; reflexivity).
  assert (H2 : fault_of w (Redis.GET key) = None) by (vm_compute; reflexivity).
  assert (H3 : store_of w !! key = Some "") by (vm_compute; reflexivity).
  repeat (split; [assumption|]).
  exact (empty_text_counts_as_absent "user" c w H1 H2 H3).
Defined.

(** Behind a server that refuses to read, [destroy] sends no deletion;
    behind a read-only server Ann's record stays. *)
Lemma destroy_failures_witness :
  (let w := no_read_world in
   let c := by_id (VStr "u1") in
   let key := key_of "user" (get_prop (where_value c) (primary_of "user" w)) w in
   by_primary_key (primary_of "user" w) c = true
   ∧ fault_of w (Redis.GET key) = Some "NOPERM"
   ∧ calls_back (destroy "user" c) w (Err (ReplyError "NOPERM")) (after (Redis.GET key) w)
   ∧ store_of (after (Redis.GET key) w) = store_of w
   ∧ sent_of (after (Redis.GET key) w) = (sent_of w ++ [Redis.GET key])%list)
  ∧ (let w := read_only_world in
     let c := by_id (VStr "u1") in
     let key := key_of "user" (get_prop (where_value c) (primary_of "user" w)) w in
     by_primary_key (primary_of "user" w) c = true
     ∧ fault_of w (Redis.GET key) = None
     ∧ store_of w !! key = Some (text_of ann)
     ∧ text_of ann ≠ ""
     ∧ fault_of w (Redis.DEL key) = Some "READONLY"
     ∧ calls_back (destroy "user" c) w (Err (ReplyError "READONLY"))
         (after (Redis.DEL key) (after (Redis.GET key) w))
     ∧ store_of (after (Redis.DEL key) (after (Redis.GET key) w)) !! key
       = Some (text_of ann)).
Proof.
  split.
  - intros w c key.
    assert (H1 : by_primary_key (primary_of "user" w) c = true) by (vm_compute; reflexivity).
    assert (H2 : fault_of w (Redis.GET key) = Some "NOPERM") by (vm_compute; reflexivity).
    repeat (split; [assumption|]).
    exact (proj1 (destroy_failures "user" c w H1) "NOPERM" H2).
  - intros w c key.
    assert (H1 : by_primary_key (primary_of "user" w) c = true) by (vm_compute; reflexivity).
    assert (H2 : fault_of w (Redis.GET key) = None) by (vm_compute; reflexivity).
    assert (H3 : store_of w !! key = Some (text_of ann)) by (vm_compute; reflexivity).
    assert (H4 : text_of ann ≠ "") by (vm_compute; discriminate).
    assert (H5 : fault_of w (Redis.DEL key) = Some "READONLY") by (vm_compute; reflexivity).
    repeat (split; [assumption|]).
    exact (proj2 (destroy_failures "user" c w H1) (text_of ann) "READONLY" H2 H3 H4 H5).
Defined.

(** [USER] and [user] are one collection to [find]: Ann is found under
    either spelling. *)
Lemma records_ignore_case_witness :
  toLowerCase "USER" = toLowerCase "user"
  ∧ find "USER" (by_id (VStr "u1")) report stocked_world
    = find "user" (by_id (VStr "u1")) report stocked_world
  ∧ fst (find "USER" (by_id (VStr "u1")) report stocked_world) = [Ok (VArr [VObj ann])].
Proof.
  assert (H1 : toLowerCase "USER" = toLowerCase "user") by (vm_compute; reflexivity).
  split; [exact H1|]. split.
  - exact (proj1 (records_ignore_case "USER" "user" H1) (by_id (VStr "u1")) report stocked_world).
  - rewrite (proj1 (records_ignore_case "USER" "user" H1)). vm_compute. reflexivity.
Defined.

(** Ann is created and found. *)
Lemma create_then_find_round_trip_witness :
  let w := defined_world in
  let pk := primary_of "user" w in
  let read := key_of "user" (obj_get pk ann) w in
  let c := {| where_ := Some [(pk, obj_get pk ann)] |} in
  (∀ k, fault_of w k = None)
  ∧ JSON.stringify ann = Some (text_of ann)
  ∧ JSON.parse (text_of ann) = Some (VObj ann)
  ∧ by_primary_key pk c = true
  ∧ replaceSpaces (toLowerCase "user") = toLowerCase "user"
  ∧ sanitize read = read
  ∧ ∃ created w',
      create "user" ann (fun r1 => find "user" c (fun r2 => and_then (report r1) (report r2))) w
      = ([Ok (VObj created); Ok (VArr [VObj created])], Normal w').
Proof.
  intros w pk read c.
  assert (H1 : ∀ k, fault_of w k = None) by (intros k; reflexivity).
  assert (H2 : JSON.stringify ann = Some (text_of ann)) by (vm_compute; reflexivity).
  assert (H3 : JSON.parse (text_of ann) = Some (VObj ann)) by (vm_compute; reflexivity).
  assert (H4 : by_primary_key pk c = true) by (vm_compute; reflexivity).
  assert (H5 : replaceSpaces (toLowerCase "user") = toLowerCase "user")
    by (vm_compute; reflexivity).
  assert (H6 : sanitize read = read) by (vm_compute; reflexivity).
  repeat (split; [assumption|]).
  exact (create_then_find_round_trip "user" ann (text_of ann) (VObj ann) w
           H1 H2 H3 H4 H5 H6).
Defined.

